(** * Lucid-Mongo database layer

    A shallow embedding of [src/Database/index.js] (connection pool,
    pager, schema builder) and of
    [src/LucidMongo/Relations/EmbedsOne.js] (the embedded to-one
    relation), with the properties of the specification stated over it.

    JavaScript objects used as dictionaries are finite maps, module-level
    variables are fields of an explicit state, promises that settle later
    are entries of that state which a separate step completes, and
    generator bodies are written in a small state-and-exception monad. *)

From stdpp Require Import gmap strings list fin_maps pretty.
From Stdlib Require Import ZArith Lia.

(** ** JavaScript primitives *)

Module Js.

Inductive prim :=
| PUndef
| PNull
| PBool (b : bool)
| PInt (z : Z)
| PStr (s : string).

#[global] Instance prim_eq_dec : EqDecision prim.
Proof. solve_decision. Defined.

(** [if (p)], [!p], [p || d], [p && q]: the falsy primitives are
    [undefined], [null], [false], [0] and the empty string. *)
Definition truthy (p : prim) : bool :=
  match p with
  | PUndef | PNull => false
  | PBool b => b
  | PInt z => negb (z =? 0)%Z
  | PStr s => negb (String.eqb s "")
  end.

(** Conversion done by a template literal [`${p}`] and by a property key. *)
Definition toStr (p : prim) : string :=
  match p with
  | PUndef => "undefined"
  | PNull => "null"
  | PBool true => "true"
  | PBool false => "false"
  | PInt z => pretty z
  | PStr s => s
  end.

(** An environment variable or optional string argument: absent is
    [undefined]. *)
Definition ofOpt (o : option string) : prim :=
  match o with
  | Some s => PStr s
  | None => PUndef
  end.

(** Exceptions of [src/Exceptions] raised by the embedded code. The two
    [InvalidArgumentException] forms share a class; [missingConfig] is its
    static constructor. *)
Inductive error :=
| InvalidArgumentException (msg : string)
| MissingConfig (msg : string)
| RelationMisMatch (msg : string)
| UnSavedTarget (method parent related : string)
| TypeError.

#[global] Instance error_eq_dec : EqDecision error.
Proof. solve_decision. Defined.

End Js.

Import Js.

(** ** A state-and-exception monad for generator bodies

    A generator run by [co] is sequential code over the module state; a
    [throw] leaves the state as it was at the point of the throw. *)

Module Gen.

Inductive outcome (S A : Type) :=
| Return (a : A) (s : S)
| Throw (e : error) (s : S).
Arguments Return {S A} a s.
Arguments Throw {S A} e s.

Definition M (S A : Type) : Type := S → outcome S A.

Definition ret {S A} (a : A) : M S A := λ s, Return a s.
Definition throw {S A} (e : error) : M S A := λ s, Throw e s.
Definition bind {S A B} (m : M S A) (k : A → M S B) : M S B :=
  λ s, match m s with
       | Return a s' => k a s'
       | Throw e s' => Throw e s'
       end.
Definition get {S} : M S S := λ s, Return s s.
Definition modify {S} (f : S → S) : M S unit := λ s, Return tt (f s).

Definition returned {S A} (o : outcome S A) : option A :=
  match o with
  | Return a _ => Some a
  | Throw _ _ => None
  end.

Definition stateOf {S A} (o : outcome S A) : S :=
  match o with
  | Return _ s => s
  | Throw _ s => s
  end.

End Gen.

Import Gen.

Notation "'let*' x ':=' m 'in' k" := (bind m (λ x, k))
  (at level 10, x name, m at level 100, k at level 200).
Notation "'exec' m 'in' k" := (bind m (λ _, k))
  (at level 10, m at level 100, k at level 200).

(** ** Connection pool ([Database.connection], [Database.close]) *)

Module Database.

(** *** Configuration and environment *)

Record Auth := { source : prim; mechanism : prim }.

Record ConnectionCfg := {
  host : prim;
  port : prim;
  database : prim;
  auth : option Auth
}.

Record DbConfig := { connection_ : ConnectionCfg; prefix : prim }.

(** What [ConfigProvider.get] can return: the string stored under
    [database.connection] or the object stored under [database.<name>]. *)
Inductive cfgval :=
| CfgStr (s : string)
| CfgDb (c : DbConfig).

Abbreviation ConfigProvider := (gmap string cfgval).

(** [process.env.DB_USER], [process.env.DB_PASSWORD]. *)
Record Env := { DB_USER : option string; DB_PASSWORD : option string }.

(** *** Module state

    A handle is the index of the [MongoClient.connect] call that produces
    it. [connects] lists the URIs of all calls made, oldest first;
    [inflight] holds the calls whose promise has not settled yet, each
    with the pool key its [then] callback will write; [closed] lists the
    handles on which [close()] was called. *)

Definition handle := nat.

Record state := {
  connectionPools : gmap string handle;
  connects : list string;
  inflight : list (handle * string);
  closed : list handle
}.

Definition initial : state :=
  {| connectionPools := ∅; connects := []; inflight := []; closed := [] |}.

(** A handle is live when its connect has completed and nobody closed it. *)
Definition live (s : state) (h : handle) : bool :=
  bool_decide (h < length (connects s))%nat
  && negb (bool_decide (h ∈ (inflight s).*1))
  && negb (bool_decide (h ∈ closed s)).

Definition liveHandles (s : state) : list handle :=
  filter (λ h, live s h = true) (seq 0 (length (connects s))).

(** *** [_resolveConnectionKey] *)

Definition _resolveConnectionKey (Config : ConfigProvider) (connection : string)
  : error + string :=
  if String.eqb connection "default" then
    match Config !! "database.connection" with
    | Some (CfgStr c) =>
        if truthy (PStr c) then inr c
        else inl (MissingConfig
                    "Make sure to define a connection inside the database config file")
    | Some (CfgDb _) => inr "[object Object]"
    | None => inl (MissingConfig
                     "Make sure to define a connection inside the database config file")
    end
  else inr connection.

(** *** Connection string *)

Definition security (env : Env) : string :=
  if truthy (ofOpt (DB_USER env)) && truthy (ofOpt (DB_PASSWORD env)) then
    toStr (ofOpt (DB_USER env)) +:+ ":" +:+ toStr (ofOpt (DB_PASSWORD env)) +:+ "@"
  else if truthy (ofOpt (DB_USER env)) then
    toStr (ofOpt (DB_USER env)) +:+ "@"
  else "".

Definition authString (c : ConnectionCfg) : string :=
  match auth c with
  | Some a =>
      if truthy (source a) && truthy (mechanism a) then
        "?authSource=" +:+ toStr (source a) +:+ "&authMechanism=" +:+ toStr (mechanism a)
      else ""
  | None => ""
  end.

Definition connectionString (env : Env) (c : ConnectionCfg) : string :=
  "mongodb://" +:+ security env +:+ toStr (host c) +:+ ":" +:+ toStr (port c)
    +:+ "/" +:+ toStr (database c) +:+ authString c.

(** *** [Database.connection]

    The promise returned by a call. [Awaiting h] is the promise of a pool
    miss: it resolves when connect call [h] completes (see
    [connect_done]). A [throw] inside the promise executor rejects the
    promise. *)

Inductive promise :=
| Resolved (h : handle)
| Rejected (e : error)
| Awaiting (h : handle).

Definition connection (Config : ConfigProvider) (env : Env) (name : string)
    (s : state) : error + (promise * state) :=
  match _resolveConnectionKey Config name with
  | inl e => inl e
  | inr key =>
      match connectionPools s !! key with
      | None =>
          match Config !! ("database." +:+ key) with
          | None | Some (CfgStr "") =>
              inr (Rejected
                     (MissingConfig
                        ("Unable to get database client configuration for " +:+ key)),
                   s)
          | Some (CfgStr _) => inr (Rejected TypeError, s)
          | Some (CfgDb config) =>
              let h := length (connects s) in
              inr (Awaiting h,
                   {| connectionPools := connectionPools s;
                      connects := connects s ++ [connectionString env (connection_ config)];
                      inflight := inflight s ++ [(h, key)];
                      closed := closed s |})
          end
      | Some h => inr (Resolved h, s)
      end
  end.

(** The [then] callback of connect call [h]: runs when the driver has
    established the connection, stores the handle under the key captured
    by the closure and resolves the promise with the pool entry. *)

Definition connect_done (h : handle) (s : state) : option (handle * state) :=
  match list_find (λ p, p.1 = h) (inflight s) with
  | Some (_, (_, key)) =>
      let pools := <[key := h]> (connectionPools s) in
      match pools !! key with
      | Some r =>
          Some (r, {| connectionPools := pools;
                      connects := connects s;
                      inflight := filter (λ p, p.1 ≠ h) (inflight s);
                      closed := closed s |})
      | None => None
      end
  | None => None
  end.

(** [yield Database.connection(name)]: the call, then, on a pool miss,
    the completion of the connect it started, with nothing in between. *)

Definition await_connection (Config : ConfigProvider) (env : Env) (name : string)
  : M state handle :=
  λ s, match connection Config env name s with
       | inl e => Throw e s
       | inr (Resolved h, s') => Return h s'
       | inr (Rejected e, s') => Throw e s'
       | inr (Awaiting h, s') =>
           match connect_done h s' with
           | Some (r, s'') => Return r s''
           | None => Throw TypeError s'
           end
       end.

(** *** [Database.getConnectionPools] *)

Definition getConnectionPools (s : state) : gmap string handle :=
  connectionPools s.

(** *** [Database.close]

    [None] is a call without argument. [_.each] visits the pooled handles
    in the order of [map_to_list]. *)

Definition close (Config : ConfigProvider) (name : option string) (s : state)
  : error + state :=
  let resolved : error + option string :=
    if truthy (ofOpt name) then
      match _resolveConnectionKey Config (default "" name) with
      | inl e => inl e
      | inr key => inr (Some key)
      end
    else inr None in
  match resolved with
  | inl e => inl e
  | inr key =>
      match key ≫= (λ k, if truthy (PStr k) then
                            (λ h, (k, h)) <$> connectionPools s !! k
                          else None) with
      | Some (k, h) =>
          inr {| connectionPools := delete k (connectionPools s);
                 connects := connects s;
                 inflight := inflight s;
                 closed := closed s ++ [h] |}
      | None =>
          inr {| connectionPools := ∅;
                 connects := connects s;
                 inflight := inflight s;
                 closed := closed s ++ (map_to_list (connectionPools s)).*2 |}
      end
  end.

End Database.

(** ** Pager ([forPage], [paginate], [chunk]) *)

Module Pager.

(** *** Helpers of [lib/util] *)

(** A numeric argument as the JSDoc types it: a number, or [None] when
    the argument is omitted. Only integers are represented. *)
Abbreviation num := (option Z).

Definition truthyN (n : num) : bool := truthy (from_option PInt PUndef n).

(** Modelled from the spec: [util.validatePage] of lib/util.js, which is
    not among the sources; it "validates page is a positive integer
    (fails with InvalidArgumentError otherwise)". *)
Definition validatePage (page : num) : error + unit :=
  match page with
  | Some z =>
      if (0 <? z)%Z then inr tt
      else inl (InvalidArgumentException "page must be a positive integer")
  | None => inl (InvalidArgumentException "page must be a positive integer")
  end.

(** Modelled from the spec: [util.returnOffset] of lib/util.js, which
    "computes offset = (page - 1) * perPage". *)
Definition returnOffset (page perPage : Z) : Z := ((page - 1) * perPage)%Z.

(** *** The paginated result set *)

Record PaginatedResult (Row : Type) := {
  total : Z;
  perPage : Z;
  page : Z;
  lastPage : Z;
  data : list Row
}.
Arguments total {Row} _.
Arguments perPage {Row} _.
Arguments page {Row} _.
Arguments lastPage {Row} _.
Arguments data {Row} _.

(** [Math.ceil(a / b)] on integers. *)
Definition ceilDiv (a b : Z) : Z := (- ((- a) / b))%Z.

(** Modelled from the spec: [util.makePaginateMeta] of lib/util.js, which
    assembles the paginated result set of the data model: "lastPage =
    ceil(total / perPage), minimum 1", with empty [data]. *)
Definition makePaginateMeta {Row} (total page perPage : Z) : PaginatedResult Row :=
  {| total := total;
     perPage := perPage;
     page := page;
     lastPage := Z.max 1 (ceilDiv total perPage);
     data := [] |}.

(** [resultSet.data = results] *)
Definition setData {Row} (results : list Row) (r : PaginatedResult Row)
  : PaginatedResult Row :=
  {| total := total r; perPage := perPage r; page := page r;
     lastPage := lastPage r; data := results |}.

(** *** Lodash helpers *)

Definition MAX_SAFE_INTEGER : Z := 9007199254740991%Z.

(** [_.toSafeInteger]: an omitted value converts to 0, an integer is
    clamped to the safe range. *)
Definition toSafeInteger (v : num) : Z :=
  match v with
  | None => 0%Z
  | Some z => Z.max (- MAX_SAFE_INTEGER) (Z.min z MAX_SAFE_INTEGER)
  end.

(** [parseInt(count, 10)] on an integer count. *)
Definition parseInt (v : num) : num := v.

(** *** The query object (mquery) *)

Record Statement := { grouping : string; clause : string }.

Record Query := {
  collectionName : string;
  conditions : list (string * prim);
  op : string;
  optSkip : num;
  optLimit : num;
  _statements : list Statement
}.

Definition skip (n : Z) (q : Query) : Query :=
  {| collectionName := collectionName q; conditions := conditions q; op := op q;
     optSkip := Some n; optLimit := optLimit q; _statements := _statements q |}.

Definition limit (n : Z) (q : Query) : Query :=
  {| collectionName := collectionName q; conditions := conditions q; op := op q;
     optSkip := optSkip q; optLimit := Some n; _statements := _statements q |}.

Definition setOp (o : string) (q : Query) : Query :=
  {| collectionName := collectionName q; conditions := conditions q; op := o;
     optSkip := optSkip q; optLimit := optLimit q; _statements := _statements q |}.

Definition find : Query → Query := setOp "find".
Definition count : Query → Query := setOp "count".

Definition setStatements (l : list Statement) (q : Query) : Query :=
  {| collectionName := collectionName q; conditions := conditions q; op := op q;
     optSkip := optSkip q; optLimit := optLimit q; _statements := l |}.

Definition excludeAttrFromCount : list string := ["order"].

Section WithDriver.

Context {Row : Type}.

(** The database behind the query: what a yielded count query and a
    yielded find query resolve to. *)
Record Driver := {
  execCount : Query → num;
  execFind : Query → list Row
}.

Variable driver : Driver.

(** What the pager does that the outside can see, oldest first. *)
Inductive event :=
| EvCount (q : Query) (result : num)
| EvFind (q : Query) (result : list Row)
| EvCallback (rows : list Row).

(** [this] is the query the method is called on; it is mutated in place. *)
Record state := { this : Query; trace : list event }.

Definition emit (e : event) : M state unit :=
  modify (λ s, {| this := this s; trace := trace s ++ [e] |}).

Definition setThis (q : Query) : M state unit :=
  modify (λ s, {| this := q; trace := trace s |}).

Definition liftE {A} (r : error + A) : M state A :=
  match r with
  | inl e => throw e
  | inr a => ret a
  end.

Definition yieldCount (q : Query) : M state num :=
  let r := execCount driver q in
  exec emit (EvCount q r) in ret r.

Definition yieldFind (q : Query) : M state (list Row) :=
  let r := execFind driver q in
  exec emit (EvFind q r) in ret r.

(** [Database.forPage]: returns the query, which the caller yields. *)
Definition forPage (page perPage : num) : M state Query :=
  exec liftE (validatePage page) in
  let perPage := if truthyN perPage then default 0%Z perPage else 20%Z in
  let offset := returnOffset (default 0%Z page) perPage in
  let* s := get in
  let q := find (limit perPage (skip offset (this s))) in
  exec setThis q in
  ret q.

(** [Database.paginate] *)
Definition paginate (page perPage : num) (countByQuery : option Query)
  : M state (PaginatedResult Row) :=
  let parsedPerPage :=
    if truthyN (Some (toSafeInteger perPage)) then toSafeInteger perPage else 20%Z in
  let parsedPage := toSafeInteger page in
  exec liftE (validatePage (Some parsedPage)) in
  let* s := get in
  let countByQuery := default (count (this s)) countByQuery in
  let countByQuery :=
    setStatements
      (filter (λ statement, grouping statement ∉ excludeAttrFromCount)
              (_statements countByQuery))
      countByQuery in
  let* count := yieldCount countByQuery in
  if negb (truthyN count) || bool_decide (parseInt count = Some 0%Z) then
    ret (makePaginateMeta 0 parsedPage parsedPerPage)
  else
    let* q := forPage (Some parsedPage) (Some parsedPerPage) in
    let* results := yieldFind q in
    let resultSet : PaginatedResult Row :=
      makePaginateMeta (default 0%Z (parseInt count)) parsedPage parsedPerPage in
    ret (setData results resultSet).

(** [Database.chunk]. The generator recurses for as long as the driver
    returns rows; [fuel] bounds the depth of the recursion and [None]
    means that the bound was reached. *)
Fixpoint chunk (fuel : nat) (limit : num) (page : num) (s : state)
  : option (outcome state unit) :=
  match fuel with
  | O => None
  | S fuel =>
      let page := if truthyN page then default 0%Z page else 1%Z in
      match (let* q := forPage (Some page) limit in yieldFind q) s with
      | Throw e s' => Some (Throw e s')
      | Return result s' =>
          if bool_decide (length result ≠ 0%nat) then
            match emit (EvCallback result) s' with
            | Throw e s'' => Some (Throw e s'')
            | Return _ s'' => chunk fuel limit (Some (page + 1)%Z) s''
            end
          else Some (Return tt s')
      end
  end.

End WithDriver.

Arguments event : clear implicits.
Arguments state : clear implicits.
Arguments Driver : clear implicits.

(** A fixed backing data set: [skip] drops rows, [limit] bounds the
    number of rows returned. *)
Definition staticDriver {Row} (rows : list Row) : Driver Row :=
  {| execCount := λ _, Some (Z.of_nat (length rows));
     execFind := λ q,
       let rest := drop (Z.to_nat (default 0%Z (optSkip q))) rows in
       match optLimit q with
       | Some l => take (Z.to_nat l) rest
       | None => rest
       end |}.

End Pager.

(** ** Schema management ([Database.schema], [SchemaBuilder]) *)

Module Schema.

(** A plain object literal with primitive fields, in insertion order. *)
Abbreviation object := (list (string * prim)).

(** [o[k] = v] *)
Fixpoint setProp (k : string) (v : prim) (o : object) : object :=
  match o with
  | [] => [(k, v)]
  | (k', v') :: o' =>
      if String.eqb k' k then (k, v) :: o' else (k', v') :: setProp k v o'
  end.

Record IndexDecl := { keys : object; options : object }.

(** The collection handle returned by the driver. *)
Record Collection := { ofDb : Database.handle; collName : string }.

(** Calls into the driver, with the arguments as they are passed. *)
Inductive call :=
| DbCreateCollection (db : Database.handle) (collectionName : string)
| DbDropCollection (db : Database.handle) (collectionName : string)
| DbRename (db : Database.handle) (collectionName target : string)
| CollCreateIndex (c : Collection) (keys options : object)
| CollDropIndex (c : Collection) (keys options : prim).

Record SchemaBuilder := {
  collection : Collection;
  createIndexes : list IndexDecl;
  dropIndexes : list prim
}.

Definition newSchemaBuilder (c : Collection) : SchemaBuilder :=
  {| collection := c; createIndexes := []; dropIndexes := [] |}.

(** The column declarations do nothing. *)
Definition increments : M SchemaBuilder unit := ret tt.
Definition timestamps : M SchemaBuilder unit := ret tt.
Definition softDeletes : M SchemaBuilder unit := ret tt.
Definition string_ : M SchemaBuilder unit := ret tt.
Definition timestamp : M SchemaBuilder unit := ret tt.
Definition boolean : M SchemaBuilder unit := ret tt.
Definition integer : M SchemaBuilder unit := ret tt.
Definition double : M SchemaBuilder unit := ret tt.

(** [this.index]; [keys] and [options] are [None] when omitted. The
    options object is the caller's own for this call. *)
Definition index (name : prim) (keys : option object) (options : option object)
  : M SchemaBuilder unit :=
  if negb (truthy name) then
    throw (InvalidArgumentException "param name is required to create index")
  else if match keys with
          | None => true
          | Some k => bool_decide (length k = 0%nat)
          end then
    throw (InvalidArgumentException "param keys is required to create index")
  else
    let options := default [] options in
    let options := setProp "name" name options in
    modify (λ this,
      {| collection := collection this;
         createIndexes := createIndexes this
                            ++ [{| keys := default [] keys; options := options |}];
         dropIndexes := dropIndexes this |}).

(** [this.dropIndex] *)
Definition dropIndex (name : prim) : M SchemaBuilder unit :=
  modify (λ this,
    {| collection := collection this;
       createIndexes := createIndexes this;
       dropIndexes := dropIndexes this ++ [name] |}).

(** The pool together with the log of driver calls, oldest first. *)
Record world := { pool : Database.state; calls : list call }.

Definition driverCall (c : call) : M world unit :=
  modify (λ w, {| pool := pool w; calls := calls w ++ [c] |}).

Definition liftPool {A} (m : M Database.state A) : M world A :=
  λ w, match m (pool w) with
       | Return a p => Return a {| pool := p; calls := calls w |}
       | Throw e p => Throw e {| pool := p; calls := calls w |}
       end.

(** [for (var i in list) { yield f(list[i]) }] *)
Fixpoint forIn {S A} (f : A → M S unit) (l : list A) : M S unit :=
  match l with
  | [] => ret tt
  | x :: l' => exec f x in forIn f l'
  end.

(** Reading a property of a queued drop entry: a property of a string,
    number or boolean that it does not have is [undefined]; reading a
    property of [undefined] or [null] throws. *)
Definition propOfPrim (p : prim) (k : string) : error + prim :=
  match p with
  | PUndef | PNull => inl TypeError
  | _ => inr PUndef
  end.

(** [this.build] *)
Definition build (this : SchemaBuilder) : M world unit :=
  exec forIn (λ createIndex,
          driverCall (CollCreateIndex (collection this)
                        (keys createIndex) (options createIndex)))
       (createIndexes this) in
  forIn (λ dropIndex,
      match propOfPrim dropIndex "keys", propOfPrim dropIndex "options" with
      | inr k, inr o => driverCall (CollDropIndex (collection this) k o)
      | inl e, _ | _, inl e => throw e
      end)
    (dropIndexes this).

Section Operations.

Variable Config : Database.ConfigProvider.
Variable env : Database.Env.

(** The caller's callback receives the builder and calls its methods. *)
Definition runCallback (callback : M SchemaBuilder unit) (b : SchemaBuilder)
  : M world SchemaBuilder :=
  match callback b with
  | Return _ b' => ret b'
  | Throw e _ => throw e
  end.

Definition db_createCollection (db : Database.handle) (collectionName : string)
  : M world Collection :=
  exec driverCall (DbCreateCollection db collectionName) in
  ret {| ofDb := db; collName := collectionName |}.

Definition createCollection (collectionName : string)
    (callback : M SchemaBuilder unit) : M world unit :=
  let* db := liftPool (Database.await_connection Config env "default") in
  let* collection := db_createCollection db collectionName in
  let schemaBuilder := newSchemaBuilder collection in
  let* schemaBuilder := runCallback callback schemaBuilder in
  build schemaBuilder.

Definition createCollectionIfNotExists (collectionName : string)
    (callback : M SchemaBuilder unit) : M world unit :=
  let* db := liftPool (Database.await_connection Config env "default") in
  let* collection := db_createCollection db collectionName in
  let schemaBuilder := newSchemaBuilder collection in
  let* schemaBuilder := runCallback callback schemaBuilder in
  build schemaBuilder.

Definition dropCollection (collectionName : string) : M world unit :=
  let* db := liftPool (Database.await_connection Config env "default") in
  driverCall (DbDropCollection db collectionName).

Definition dropIfExists (collectionName : string) : M world unit :=
  let* db := liftPool (Database.await_connection Config env "default") in
  driverCall (DbDropCollection db collectionName).

Definition renameCollection (collectionName target : string) : M world unit :=
  let* db := liftPool (Database.await_connection Config env "default") in
  driverCall (DbRename db collectionName target).

End Operations.

End Schema.

(** ** Documents

    A document value is a tree. Every object and array node carries the
    identity of the JavaScript object it stands for, so that two
    references to one object can be told from two equal objects. *)

Module Doc.

#[local] Unset Elimination Schemes.
Inductive value :=
| VPrim (p : prim)
| VObj (id : nat) (fields : list (string * value))
| VArr (id : nat) (items : list value).
#[local] Set Elimination Schemes.

Definition undefined : value := VPrim PUndef.

(** [v[k]] on a document; a field that is not there reads [undefined]. *)
Fixpoint lookupField (k : string) (fields : list (string * value)) : value :=
  match fields with
  | [] => undefined
  | (k', x) :: fields' => if String.eqb k' k then x else lookupField k fields'
  end.

Definition getProp (v : value) (k : string) : value :=
  match v with
  | VObj _ fields => lookupField k fields
  | _ => undefined
  end.

(** [fields[k] = x] *)
Fixpoint assignField (k : string) (x : value) (fields : list (string * value))
  : list (string * value) :=
  match fields with
  | [] => [(k, x)]
  | (k', x') :: fields' =>
      if String.eqb k' k then (k, x) :: fields'
      else (k', x') :: assignField k x fields'
  end.

(** [delete fields[k]] *)
Definition removeField (k : string) (fields : list (string * value))
  : list (string * value) :=
  filter (λ kv, kv.1 ≠ k) fields.

Definition truthyV (v : value) : bool :=
  match v with
  | VPrim p => truthy p
  | _ => true
  end.

(** The string a value turns into when it is used as a property key. *)
Fixpoint toPropertyKey (v : value) : string :=
  match v with
  | VPrim p => toStr p
  | VObj _ _ => "[object Object]"
  | VArr _ items =>
      (fix join (l : list value) : string :=
         match l with
         | [] => ""
         | [x] => match x with
                  | VPrim PUndef | VPrim PNull => ""
                  | _ => toPropertyKey x
                  end
         | x :: l' =>
             match x with
             | VPrim PUndef | VPrim PNull => ""
             | _ => toPropertyKey x
             end +:+ "," +:+ join l'
         end) items
  end.

(** The identities of all nodes of a value. *)
Fixpoint ids (v : value) : list nat :=
  match v with
  | VPrim _ => []
  | VObj id fields => id :: flat_map (λ kv, ids kv.2) fields
  | VArr id items => id :: flat_map ids items
  end.

(** What a value holds, whatever objects hold it. *)
Fixpoint content (v : value) : value :=
  match v with
  | VPrim p => VPrim p
  | VObj _ fields => VObj 0 (map (λ kv, (kv.1, content kv.2)) fields)
  | VArr _ items => VArr 0 (map content items)
  end.

(** A map over a list that threads the allocator from left to right. *)
Fixpoint mapAlloc {A B} (f : A → nat → B * nat) (l : list A) (n : nat)
  : list B * nat :=
  match l with
  | [] => ([], n)
  | x :: l' =>
      let c := f x n in
      let r := mapAlloc f l' c.2 in
      (c.1 :: r.1, r.2)
  end.

(** [_.cloneDeep]: a new object for every node, allocated from [next]
    on, the parent before its children, the children in order. *)
Fixpoint cloneDeep (v : value) (next : nat) : value * nat :=
  match v with
  | VPrim p => (VPrim p, next)
  | VObj _ fields =>
      let r := mapAlloc (λ kv n, let c := cloneDeep kv.2 n in ((kv.1, c.1), c.2))
                        fields (S next) in
      (VObj next r.1, r.2)
  | VArr _ items =>
      let r := mapAlloc cloneDeep items (S next) in
      (VArr next r.1, r.2)
  end.

(** Induction over a value and the values below it. *)
Section Induction.

Variable P : value → Prop.
Hypothesis Hprim : ∀ p, P (VPrim p).
Hypothesis Hobj : ∀ id fields, Forall (λ kv, P kv.2) fields → P (VObj id fields).
Hypothesis Harr : ∀ id items, Forall P items → P (VArr id items).

Fixpoint value_ind (v : value) : P v :=
  match v with
  | VPrim p => Hprim p
  | VObj id fields =>
      Hobj id fields
        ((fix all (l : list (string * value)) : Forall (λ kv, P kv.2) l :=
            match l with
            | [] => List.Forall_nil _
            | kv :: l' => List.Forall_cons _ kv l' (value_ind kv.2) (all l')
            end) fields)
  | VArr id items =>
      Harr id items
        ((fix all (l : list value) : Forall P l :=
            match l with
            | [] => List.Forall_nil _
            | x :: l' => List.Forall_cons _ x l' (value_ind x) (all l')
            end) items)
  end.

End Induction.

End Doc.

(** ** The embedded to-one relation ([EmbedOne]) *)

Module EmbedsOne.

Import Doc.

(** *** Model instances *)

(** A model class, as far as the relation looks at it. Classes are
    objects: [classId] is the identity of the class object, so that two
    classes of the same name are two classes; a class declared with
    [extends] carries the class it extends. *)
Inductive ModelClass :=
| Class (classId : nat) (name primaryKey : string)
| Subclass (super : ModelClass) (classId : nat) (name primaryKey : string).

#[global] Instance ModelClass_eq_dec : EqDecision ModelClass.
Proof. solve_decision. Defined.

(** [C.name], [C.primaryKey] *)
Definition name (C : ModelClass) : string :=
  match C with
  | Class _ name _ | Subclass _ _ name _ => name
  end.

Definition primaryKey (C : ModelClass) : string :=
  match C with
  | Class _ _ primaryKey | Subclass _ _ _ primaryKey => primaryKey
  end.

(** The classes whose prototypes are on the prototype chain of the
    instances of [C]: [C] itself, the class it extends, and so on. *)
Fixpoint prototypeChain (C : ModelClass) : list ModelClass :=
  C :: match C with
       | Class _ _ _ => []
       | Subclass super _ _ _ => prototypeChain super
       end.

(** Modelled from the spec: the Model class is not among the sources. A
    model instance is "a mutable record wrapping a mapping of field name
    to value (attributes), an original snapshot [...], an exists flag". *)
Record Instance := {
  constructor_ : ModelClass;
  attributes : value;
  original : value;
  exists_ : bool
}.

Definition setAttributes (v : value) (m : Instance) : Instance :=
  {| constructor_ := constructor_ m; attributes := v;
     original := original m; exists_ := exists_ m |}.

Definition setOriginal (v : value) (m : Instance) : Instance :=
  {| constructor_ := constructor_ m; attributes := attributes m;
     original := v; exists_ := exists_ m |}.

Definition setExists (b : bool) (m : Instance) : Instance :=
  {| constructor_ := constructor_ m; attributes := attributes m;
     original := original m; exists_ := b |}.

(** Modelled from the spec: [new RelatedModel()] of the absent Model
    class, a new (not persisted) instance with nothing loaded. *)
Definition newModel (C : ModelClass) : Instance :=
  {| constructor_ := C; attributes := undefined; original := undefined;
     exists_ := false |}.

(** [m instanceof C]: the prototype of [C] is looked for on the
    prototype chain of [m]; the name of a class plays no part. *)
Definition instanceof (m : Instance) (C : ModelClass) : bool :=
  bool_decide (C ∈ prototypeChain (constructor_ m)).

(** Modelled from the spec: [isNew] of the absent Model class; the
    instance has never been persisted. *)
Definition isNew (m : Instance) : bool := negb (exists_ m).

(** Modelled from the spec: reading and writing a field of a model
    instance ([m[k]], [m[k] = x], [m.set(k, x)], [m.unset(k)]) goes to its
    attribute mapping; an instance whose attributes are no mapping has
    no field to read or write. *)
Definition readField (m : Instance) (k : string) : error + value :=
  match attributes m with
  | VObj _ fields => inr (lookupField k fields)
  | _ => inl TypeError
  end.

Definition writeField (k : string) (x : value) (m : Instance) : error + Instance :=
  match attributes m with
  | VObj id fields => inr (setAttributes (VObj id (assignField k x fields)) m)
  | _ => inl TypeError
  end.

Definition unsetField (k : string) (m : Instance) : error + Instance :=
  match attributes m with
  | VObj id fields => inr (setAttributes (VObj id (removeField k fields)) m)
  | _ => inl TypeError
  end.

(** The lodash wrapper [_(x)]; [.value()] unwraps it. *)
Record Wrapper (A : Type) := Wrap { value_ : A }.
Arguments Wrap {A} _.
Arguments value_ {A} _.

(** *** The relation object and what it acts on *)

Section WithQuery.

(** The query object of the related model ([this.relatedQuery]). *)
Context {RelatedQuery : Type}.

Record Relation := {
  parent : Instance;
  related : ModelClass;
  fromKey : string;
  toKey : string;
  relatedQuery : RelatedQuery
}.

(** [inflect.camelize(name, false)] is taken as given. *)
Definition construct (camelize : string → string) (parent_ : Instance)
    (related_ : ModelClass) (query : RelatedQuery)
    (primaryKey_ foreignKey_ : option string) : Relation :=
  {| parent := parent_;
     related := related_;
     fromKey := if truthy (ofOpt primaryKey_) then default "" primaryKey_
                else primaryKey (constructor_ parent_);
     toKey := if truthy (ofOpt foreignKey_) then default "" foreignKey_
              else camelize (name related_);
     relatedQuery := query |}.

(** What the relation does that the outside can see. *)
Inductive effect :=
| Warn (msg : string)
| Persisted (m : Instance).

(** [this], the object allocator, the number of identifiers generated
    so far and the effects, oldest first. *)
Record state := {
  this : Relation;
  nextId : nat;
  uuids : nat;
  effects : list effect
}.

Definition getThis : M state Relation := λ s, Return (this s) s.

Definition setParent (p : Instance) : M state unit :=
  modify (λ s,
    {| this := {| parent := p; related := related (this s);
                  fromKey := fromKey (this s); toKey := toKey (this s);
                  relatedQuery := relatedQuery (this s) |};
       nextId := nextId s; uuids := uuids s; effects := effects s |}).

Definition setRelatedQuery (q : RelatedQuery) : M state unit :=
  modify (λ s,
    {| this := {| parent := parent (this s); related := related (this s);
                  fromKey := fromKey (this s); toKey := toKey (this s);
                  relatedQuery := q |};
       nextId := nextId s; uuids := uuids s; effects := effects s |}).

Definition emit (e : effect) : M state unit :=
  modify (λ s,
    {| this := this s; nextId := nextId s; uuids := uuids s;
       effects := effects s ++ [e] |}).

Definition liftE {A} (r : error + A) : M state A :=
  match r with
  | inl e => throw e
  | inr a => ret a
  end.

(** [_.cloneDeep(v)] against the allocator. *)
Definition cloneDeepM (v : value) : M state value :=
  λ s, let c := cloneDeep v (nextId s) in
       Return c.1 {| this := this s; nextId := c.2; uuids := uuids s;
                     effects := effects s |}.

(** [typeof scopeMethod === 'function'] is [Some]. *)
Definition applyScope (scopeMethod : option (RelatedQuery → RelatedQuery))
  : M state unit :=
  match scopeMethod with
  | Some f => let* r := getThis in setRelatedQuery (f (relatedQuery r))
  | None => ret tt
  end.

(** *** Lodash collection helpers *)

(** [_.keyBy(results, key)]: a later row replaces an earlier one with
    the same key. *)
Definition keyBy (key : string) (results : list value) : gmap string value :=
  foldl (λ m r, <[toPropertyKey (getProp r key) := r]> m) ∅ results.

Fixpoint traverse {A B} (f : A → M state B) (l : list A) : M state (list B) :=
  match l with
  | [] => ret []
  | x :: l' => let* y := f x in let* ys := traverse f l' in ret (y :: ys)
  end.

(** [_.mapValues(m, f)]; the entries are visited in the order of
    [map_to_list]. *)
Definition mapValues {B} (f : value → M state B) (m : gmap string value)
  : M state (gmap string B) :=
  let* l := traverse (λ kv, let* b := f kv.2 in ret (kv.1, b)) (map_to_list m) in
  ret (list_to_map l).

(** *** [eagerLoad], [eagerLoadSingle] *)

(** The body of the [mapValues] callback, shared with [eagerLoadSingle]. *)
Definition loadEmbedded (embedded : value) : M state (Wrapper Instance) :=
  let* r := getThis in
  let modelInstance := newModel (related r) in
  let modelInstance := setAttributes embedded modelInstance in
  let modelInstance := setExists true modelInstance in
  let* copy := cloneDeepM (attributes modelInstance) in
  let modelInstance := setOriginal copy modelInstance in
  ret (Wrap modelInstance).

(** [value[k]] on a row: reading a property of [undefined] or [null]
    throws. *)
Definition propOf (v : value) (k : string) : error + value :=
  match v with
  | VPrim PUndef | VPrim PNull => inl TypeError
  | _ => inr (getProp v k)
  end.

Definition eagerLoad (values : list value)
    (scopeMethod : option (RelatedQuery → RelatedQuery)) (results : list value)
  : M state (gmap string (Wrapper Instance)) :=
  exec applyScope scopeMethod in
  let* r := getThis in
  mapValues (λ value,
               let* embedded := liftE (propOf value (toKey r)) in
               loadEmbedded embedded)
            (keyBy (fromKey r) results).

Definition eagerLoadSingle (key : value)
    (scopeMethod : option (RelatedQuery → RelatedQuery)) (result : value)
  : M state (gmap string (Wrapper Instance)) :=
  exec applyScope scopeMethod in
  let* r := getThis in
  let* embedded := liftE (propOf result (toKey r)) in
  let* w := loadEmbedded embedded in
  ret (<[toPropertyKey key := w]> ∅).

(** *** [save], [delete] *)

Section WithModel.

(** [relatedInstance.toJSON()] of the absent Model class and the
    identifiers [uuid.v4()] returns, in the order it returns them. *)
Variable toJSON : Instance → value.
Variable uuid_v4 : nat → string.

Definition uuid : M state string :=
  λ s, Return (uuid_v4 (uuids s))
         {| this := this s; nextId := nextId s; uuids := S (uuids s);
            effects := effects s |}.

(** Modelled from the spec: [save] of the absent Model class on the
    parent "persists the parent"; the instance exists afterwards and its
    snapshot is retaken. *)
Definition parentSave : M state unit :=
  let* r := getThis in
  let* copy := cloneDeepM (attributes (parent r)) in
  let p := setExists true (setOriginal copy (parent r)) in
  exec setParent p in
  emit (Persisted p).

Definition save (relatedInstance : Instance) : M state Instance :=
  let* r := getThis in
  if negb (instanceof relatedInstance (related r)) then
    throw (RelationMisMatch "save accepts an instance of related model")
  else if isNew (parent r) then
    throw (UnSavedTarget "save" (name (constructor_ (parent r))) (name (related r)))
  else
    let* own := liftE (readField (parent r) (fromKey r)) in
    exec (if negb (truthyV own) then
            emit (Warn ("Trying to save relationship with " +:+ fromKey r
                          +:+ " as primaryKey, whose value is falsy"))
          else ret tt) in
    let* key := liftE (readField relatedInstance (fromKey r)) in
    let* relatedInstance :=
      (if negb (truthyV key) then
         let* u := uuid in
         liftE (writeField (fromKey r) (VPrim (PStr u)) relatedInstance)
       else ret relatedInstance) in
    let* p := liftE (writeField (toKey r) (toJSON relatedInstance) (parent r)) in
    exec setParent p in
    exec parentSave in
    ret relatedInstance.

Definition delete : M state unit :=
  let* r := getThis in
  if isNew (parent r) then
    throw (UnSavedTarget "delete" (name (constructor_ (parent r))) (name (related r)))
  else
    let* p := liftE (unsetField (toKey r) (parent r)) in
    exec setParent p in
    parentSave.

End WithModel.

End WithQuery.

Arguments Relation : clear implicits.
Arguments state : clear implicits.
Arguments effect : clear implicits.

End EmbedsOne.

(** * Vocabulary of the properties *)

Module PoolSpec.

Import Database.

(** An environment variable is set when it is defined and not empty. *)
Definition isSet (o : option string) : Prop := ∃ v, o = Some v ∧ v ≠ "".

(** The credentials part of the URI, as the specification words it. *)
Inductive credentials (env : Env) : string → Prop :=
| cred_user_password u p :
    DB_USER env = Some u → u ≠ "" → DB_PASSWORD env = Some p → p ≠ "" →
    credentials env (u +:+ ":" +:+ p +:+ "@")
| cred_user_only u :
    DB_USER env = Some u → u ≠ "" → ¬ isSet (DB_PASSWORD env) →
    credentials env (u +:+ "@")
| cred_none :
    ¬ isSet (DB_USER env) → credentials env "".

(** The query part of the URI: both parameters, or nothing. *)
Inductive queryPart (c : ConnectionCfg) : string → Prop :=
| query_auth a :
    auth c = Some a → truthy (source a) = true → truthy (mechanism a) = true →
    queryPart c ("?authSource=" +:+ toStr (source a)
                   +:+ "&authMechanism=" +:+ toStr (mechanism a))
| query_none :
    (∀ a, auth c = Some a → truthy (source a) && truthy (mechanism a) = false) →
    queryPart c "".

End PoolSpec.

Module PagerSpec.

Import Pager.

(** The page size in force: the one given, or 20 when it is omitted (or
    zero, which [||] treats alike). *)
Definition perPageOr20 (perPage : num) : Z :=
  match perPage with
  | Some p => if (p =? 0)%Z then 20%Z else p
  | None => 20%Z
  end.

(** The query restricted to one page: [skip(offset).limit(perPage).find()]. *)
Definition pageQuery (base : Query) (page perPage : Z) : Query :=
  find (limit perPage (skip ((page - 1) * perPage)%Z base)).

Definition positiveInteger (page : num) : Prop := ∃ z, page = Some z ∧ (0 < z)%Z.

(** The count query [paginate] yields: the one supplied, or a count on a
    copy of this query, without its ordering statements. *)
Definition countQuery (countByQuery : option Query) (base : Query) : Query :=
  let q := default (count base) countByQuery in
  setStatements
    (filter (λ statement, grouping statement ≠ "order") (_statements q)) q.

Definition zeroOrAbsent (count : num) : Prop := count = None ∨ count = Some 0%Z.

(** The number of pages of [L] rows that [N] rows fill. *)
Definition pageCount (N L : nat) : nat := (N + L - 1) / L.

Section WithRows.

Context {Row : Type}.

(** The rows of page [i + 1]. *)
Definition pageRows (rows : list Row) (L i : nat) : list Row :=
  take L (drop (i * L) rows).

Definition pagesOf (rows : list Row) (L : nat) : list (list Row) :=
  map (pageRows rows L) (seq 0 (pageCount (length rows) L)).

(** One fetch and one callback per page, from page [p] on, and a last
    fetch that comes back empty. *)
Fixpoint chunkTrace (base : Query) (L p : Z) (pages : list (list Row))
  : list (event Row) :=
  match pages with
  | [] => [EvFind (pageQuery base p L) []]
  | pg :: rest =>
      EvFind (pageQuery base p L) pg :: EvCallback pg
        :: chunkTrace base L (p + 1) rest
  end.

Definition callbacksOf (t : list (event Row)) : list (list Row) :=
  omap (λ e, match e with EvCallback rows => Some rows | _ => None end) t.

Definition fetchesOf (t : list (event Row)) : list (Query * list Row) :=
  omap (λ e, match e with EvFind q rows => Some (q, rows) | _ => None end) t.

End WithRows.

End PagerSpec.

Module SchemaSpec.

Import Database Schema.

(** A declaration made on the builder by the caller's callback. *)
Inductive decl :=
| Index (name : prim) (keys : option object) (options : option object)
| DropIndex (name : prim).

Definition declare (d : decl) : M SchemaBuilder unit :=
  match d with
  | Index name keys options => index name keys options
  | DropIndex name => dropIndex name
  end.

(** An [index] call that passes the argument checks; a [dropIndex] call
    with a name that has properties to read. *)
Definition accepted (d : decl) : Prop :=
  match d with
  | Index name keys options =>
      truthy name = true ∧ ∃ k, keys = Some k ∧ k ≠ []
  | DropIndex name => name ≠ PUndef ∧ name ≠ PNull
  end.

(** The index creations and the index drops among the declarations, in
    the order of declaration. *)
Definition declaredCreates (decls : list decl) : list IndexDecl :=
  omap (λ d, match d with
             | Index name keys options =>
                 Some {| keys := default [] keys;
                         options := setProp "name" name (default [] options) |}
             | DropIndex _ => None
             end) decls.

Definition declaredDrops (decls : list decl) : list prim :=
  omap (λ d, match d with
             | DropIndex name => Some name
             | Index _ _ _ => None
             end) decls.

End SchemaSpec.

Module DocSpec.

Import Doc.

(** [copy] is a deep copy of [v] made at allocator position [n]: it
    holds what [v] holds, in objects allocated from [n] on. *)
Definition deepCopyFrom (n : nat) (copy v : value) : Prop :=
  content copy = content v ∧ Forall (λ i, n ≤ i) (ids copy).

(** All objects of [v] were allocated before [n]. *)
Definition allocatedBelow (n : nat) (v : value) : Prop :=
  Forall (λ i, i < n) (ids v).

(** What [cloneDeep] returns at every allocator position: a value with
    the same content, made of the objects allocated by the call. *)
Definition cloneSpec (v : value) : Prop :=
  ∀ n,
    content (cloneDeep v n).1 = content v
    ∧ n ≤ (cloneDeep v n).2
    ∧ Forall (λ i, n ≤ i < (cloneDeep v n).2) (ids (cloneDeep v n).1).

End DocSpec.

Module EmbedsOneSpec.

Import Doc DocSpec EmbedsOne.

(** The key under which [keyBy] files a row. *)
Definition keyOf (key : string) (row : value) : string :=
  toPropertyKey (getProp row key).

Definition isDoc (v : value) : Prop := ∃ id fields, v = VObj id fields.

(** [D] is the class [C], or extends it, directly or through other
    classes. *)
Inductive extendsOrIs (C : ModelClass) : ModelClass → Prop :=
| extendsOrIs_same : extendsOrIs C C
| extendsOrIs_sub D classId name primaryKey :
    extendsOrIs C D → extendsOrIs C (Subclass D classId name primaryKey).

(** [m] is an instance of the model [C]: it was made by [C] or by a
    class that extends [C]. *)
Definition instanceOfModel (m : Instance) (C : ModelClass) : Prop :=
  extendsOrIs C (constructor_ m).

(** What the [mapValues] callback makes of a row: an instance of the
    related model around the embedded field of the row, marked as
    existing, with a deep copy of the field as snapshot. *)
Definition loadedFrom (C : ModelClass) (toKey : string) (n : nat) (row : value)
    (w : Wrapper Instance) : Prop :=
  constructor_ (value_ w) = C
  ∧ attributes (value_ w) = getProp row toKey
  ∧ exists_ (value_ w) = true
  ∧ deepCopyFrom n (original (value_ w)) (attributes (value_ w)).

End EmbedsOneSpec.

(** ** Sample data *)

Module Samples.

Import Database Pager Schema SchemaSpec Doc EmbedsOne.

(** A pool that holds one connection, under the name [a]. *)
Definition poolA : Database.state :=
  {| connectionPools := {[ "a" := 0%nat ]};
     connects := ["mongodb://localhost:27017/a"];
     inflight := [];
     closed := [] |}.

Definition users : Collection := {| ofDb := 0%nat; collName := "users" |}.

(** [index('email_idx', {email: 1})] then [dropIndex('legacy_idx')]. *)
Definition emailIndexThenDrop : list decl :=
  [ Index (PStr "email_idx") (Some [("email", PInt 1)]) None;
    DropIndex (PStr "legacy_idx") ].

Definition localApp : ConnectionCfg :=
  {| host := PStr "localhost"; port := PInt 27017; database := PStr "app";
     auth := Some {| source := PStr "admin"; mechanism := PStr "SCRAM-SHA-1" |} |}.

Definition sampleConfig : ConfigProvider :=
  {[ "database.connection" := CfgStr "mongo";
     "database.mongo" := CfgDb {| connection_ := localApp; prefix := PUndef |} ]}.

Definition sampleEnv : Env :=
  {| DB_USER := Some "admin"; DB_PASSWORD := Some "secret" |}.

Definition usersQuery : Query :=
  {| collectionName := "users"; conditions := []; op := "";
     optSkip := None; optLimit := None;
     _statements := [ {| grouping := "order"; clause := "name" |} ] |}.

Definition usersState : Pager.state nat := {| Pager.this := usersQuery; trace := [] |}.

Definition User : ModelClass := Class 0 "User" "_id".
Definition Profile : ModelClass := Class 1 "Profile" "_id".

(** A class that extends [Profile], a class of its own that is also
    called Profile, and a class that has nothing to do with it. *)
Definition PublicProfile : ModelClass := Subclass Profile 2 "PublicProfile" "_id".
Definition OtherProfile : ModelClass := Class 3 "Profile" "_id".
Definition Admin : ModelClass := Class 4 "Admin" "_id".

Definition userRows : list value :=
  [ VObj 0 [("_id", VPrim (PInt 7)); ("profile", VObj 1 [("bio", VPrim (PStr "x"))])];
    VObj 2 [("_id", VPrim (PInt 8))];
    VObj 3 [("_id", VPrim (PInt 7)); ("profile", VObj 4 [("bio", VPrim (PStr "y"))])] ].

Definition savedUser : Instance :=
  {| constructor_ := User;
     attributes := VObj 0 [("_id", VPrim (PInt 7))];
     original := VObj 1 [("_id", VPrim (PInt 7))];
     exists_ := true |}.

Definition newProfile : Instance :=
  {| constructor_ := Profile;
     attributes := VObj 2 [("bio", VPrim (PStr "x"))];
     original := undefined;
     exists_ := false |}.

(** An instance like [newProfile], made by the class [C]. *)
Definition profileOf (C : ModelClass) : Instance :=
  {| constructor_ := C;
     attributes := VObj 2 [("bio", VPrim (PStr "x"))];
     original := undefined;
     exists_ := false |}.

(** A user that was never persisted. *)
Definition newUser : Instance :=
  {| constructor_ := User;
     attributes := VObj 0 [("name", VPrim (PStr "ann"))];
     original := undefined;
     exists_ := false |}.

Definition userProfile : Relation unit :=
  {| parent := savedUser; related := Profile; fromKey := "_id";
     toKey := "profile"; relatedQuery := tt |}.

Definition relationState : EmbedsOne.state unit :=
  {| EmbedsOne.this := userProfile; nextId := 5; uuids := 0; effects := [] |}.

(** The same relation on the user that was never persisted. *)
Definition unsavedRelationState : EmbedsOne.state unit :=
  {| EmbedsOne.this :=
       {| parent := newUser; related := Profile; fromKey := "_id";
          toKey := "profile"; relatedQuery := tt |};
     nextId := 5; uuids := 0; effects := [] |}.

Definition sampleUuid (n : nat) : string := "uuid-" +:+ pretty n.

End Samples.

(** * Further code of the sources *)

(** ** Sequential use of the pool

    A caller that yields every call: each step is an awaited
    [Database.connection] or a [Database.close]; a step that throws
    leaves the state as the throw found it. *)

Module PoolOps.

Import Database.

Inductive op :=
| Connect (name : string)
| Close (name : option string).

Definition perform (Config : ConfigProvider) (env : Env) (o : op) (s : state)
  : state :=
  match o with
  | Connect name => stateOf (await_connection Config env name s)
  | Close name =>
      match close Config name s with
      | inr s' => s'
      | inl _ => s
      end
  end.

Definition performAll (Config : ConfigProvider) (env : Env) (ops : list op)
    (s : state) : state :=
  foldl (λ s o, perform Config env o s) s ops.

(** The handle is in the pool, under some name. *)
Definition pooled (s : state) (h : handle) : Prop :=
  ∃ key, connectionPools s !! key = Some h.

(** No connect is in flight, the handles opened so far are the pooled
    ones and the closed ones, and no handle is pooled twice. *)
Record settled (s : state) : Prop := {
  settled_inflight : inflight s = [];
  settled_pooled : ∀ key h,
    connectionPools s !! key = Some h →
    (h < length (connects s))%nat ∧ h ∉ closed s;
  settled_rest : ∀ h,
    (h < length (connects s))%nat → h ∈ closed s ∨ pooled s h;
  settled_closed : ∀ h, h ∈ closed s → (h < length (connects s))%nat;
  settled_names : ∀ k1 k2 h,
    connectionPools s !! k1 = Some h → connectionPools s !! k2 = Some h → k1 = k2
}.

(** The two states [close] can end in: one pooled handle closed and
    its entry deleted, or every pooled handle closed and the pool emptied. *)
Definition closedOne (key : string) (h : handle) (s : state) : state :=
  {| connectionPools := delete key (connectionPools s);
     connects := connects s;
     inflight := inflight s;
     closed := closed s ++ [h] |}.

Definition closedAll (s : state) : state :=
  {| connectionPools := ∅;
     connects := connects s;
     inflight := inflight s;
     closed := closed s ++ (map_to_list (connectionPools s)).*2 |}.

End PoolOps.

(** ** The module proxy ([DatabaseProxy]) *)

Module Proxy.

Import Database.

Definition customImplementations : list string :=
  ["_resolveConnectionKey"; "_setConfigProvider"; "getConnectionPools";
   "connection"; "close"; "schema"].

(** What a property read on the exported module evaluates to: the
    property of [Database] itself, or the property of that name of the
    promise returned by [Database.connection('default')]. *)
Inductive got :=
| OwnProperty (name : string)
| PromiseProperty (p : promise) (name : string).

(** The [get] trap. A throw of [_resolveConnectionKey] surfaces at the
    read. *)
Definition get (Config : ConfigProvider) (env : Env) (name : string) (s : state)
  : error + (got * state) :=
  if bool_decide (name ∈ customImplementations) then inr (OwnProperty name, s)
  else
    match connection Config env "default" s with
    | inl e => inl e
    | inr (p, s') => inr (PromiseProperty p name, s')
    end.

(** The names among [names] that the proxy does not serve from
    [Database] itself. *)
Definition forwarded (names : list string) : list string :=
  filter (λ name, name ∉ customImplementations) names.

(** Property reads made one after the other, none of them awaited. *)
Fixpoint getAll (Config : ConfigProvider) (env : Env) (names : list string)
    (s : state) : error + state :=
  match names with
  | [] => inr s
  | name :: names' =>
      match get Config env name s with
      | inl e => inl e
      | inr (_, s') => getAll Config env names' s'
      end
  end.

End Proxy.

(** ** Collection names and prefixes ([collection], [withPrefix],
    [withoutPrefix]) *)

Module Prefix.

(** The fields of the query object the three methods use, and the names
    they hand to [_originalCollection], oldest first. [client] is the
    value of [this.client.config.prefix], [None] for a query object
    without a client. *)
Record query := {
  _instancePrefix : prim;
  _skipPrefix : bool;
  client : option prim;
  handed : list string
}.

(** A query object on which none of the three methods was called. *)
Definition fresh (client : option prim) : query :=
  {| _instancePrefix := PUndef; _skipPrefix := false; client := client;
     handed := [] |}.

Definition collection (collectionName : string) (this : query) : error + query :=
  match (if truthy (_instancePrefix this) then inr (_instancePrefix this)
         else match client this with
              | Some p => inr p
              | None => inl TypeError
              end) with
  | inl e => inl e
  | inr prefix =>
      let prefixedCollectionName :=
        if truthy prefix && negb (_skipPrefix this)
        then toStr prefix +:+ collectionName
        else collectionName in
      inr {| _instancePrefix := _instancePrefix this;
             _skipPrefix := _skipPrefix this;
             client := client this;
             handed := handed this ++ [prefixedCollectionName] |}
  end.

Definition withoutPrefix (this : query) : query :=
  {| _instancePrefix := _instancePrefix this; _skipPrefix := true;
     client := client this; handed := handed this |}.

Definition withPrefix (prefix : prim) (this : query) : query :=
  {| _instancePrefix := prefix; _skipPrefix := _skipPrefix this;
     client := client this; handed := handed this |}.

(** A chain of calls on one query object. *)
Inductive call :=
| Collection (collectionName : string)
| WithPrefix (prefix : prim)
| WithoutPrefix.

#[global] Instance call_eq_dec : EqDecision call.
Proof. solve_decision. Defined.

Definition apply (c : call) (this : query) : error + query :=
  match c with
  | Collection collectionName => collection collectionName this
  | WithPrefix prefix => inr (withPrefix prefix this)
  | WithoutPrefix => inr (withoutPrefix this)
  end.

Fixpoint chain (cs : list call) (this : query) : error + query :=
  match cs with
  | [] => inr this
  | c :: cs' =>
      match apply c this with
      | inl e => inl e
      | inr this' => chain cs' this'
      end
  end.

(** The prefix given by the last [withPrefix] of a chain, and whether the
    chain has a [withoutPrefix]. *)
Definition lastPrefix (cs : list call) : prim :=
  foldl (λ p c, match c with WithPrefix prefix => prefix | _ => p end) PUndef cs.

Definition everSkipped (cs : list call) : bool :=
  bool_decide (WithoutPrefix ∈ cs).

End Prefix.

(** ** Transactions ([Database.transaction]) *)

Module Transaction.

Section WithTrx.

(** [U] is what the callback works on, [A] what it returns. *)
Context {U A : Type}.

Inductive txEvent :=
| Committed (a : A)
| RolledBack (e : error).

Record state := { user : U; txlog : list txEvent }.

(** [trx.commit] rejects with [e] when [commitFails] is [Some e], and
    [trx.rollback] likewise with [rollbackFails]; the calls to
    [trx.commit] and [trx.rollback] are logged as they are made. *)
Variable commitFails rollbackFails : option error.

Definition commit (a : A) : M state unit :=
  λ s, let s' := {| user := user s; txlog := txlog s ++ [Committed a] |} in
       match commitFails with
       | Some e => Throw e s'
       | None => Return tt s'
       end.

Definition rollback (e : error) : M state unit :=
  λ s, let s' := {| user := user s; txlog := txlog s ++ [RolledBack e] |} in
       match rollbackFails with
       | Some e' => Throw e' s'
       | None => Return tt s'
       end.

(** [co(function * () { return yield cb(trx) })] *)
Definition runCallback (cb : M U A) : M state A :=
  λ s, match cb (user s) with
       | Return a u => Return a {| user := u; txlog := txlog s |}
       | Throw e u => Throw e {| user := u; txlog := txlog s |}
       end.

(** [p.then(f)]: [f] runs on the value of [p]; a rejection passes by. *)
Definition then_ {B} (p : M state A) (f : A → M state B) : M state B := bind p f.

(** [p.catch(f)]: [f] runs on the rejection of [p]; a value passes by. *)
Definition catch_ {B} (p : M state B) (f : error → M state unit) : M state unit :=
  λ s, match p s with
       | Return _ s' => Return tt s'
       | Throw e s' => f e s'
       end.

(** The function [Database.transaction] hands to [clientTransaction]. *)
Definition handler (cb : M U A) : M state unit :=
  catch_ (then_ (runCallback cb) commit) rollback.

(** [Database.transaction(clientTransaction)(cb)] *)
Definition transaction {R} (clientTransaction : M state unit → R) (cb : M U A) : R :=
  clientTransaction (handler cb).

End WithTrx.

Arguments txEvent : clear implicits.
Arguments state : clear implicits.

End Transaction.

(** ** Vocabulary for the embedded relation *)

Module EmbedsOneMoreSpec.

Import Doc EmbedsOne.

Section WithQuery.

Context {RelatedQuery : Type}.

(** The state after the scope callback, if there is one, was applied. *)
Definition scoped (scopeMethod : option (RelatedQuery → RelatedQuery))
    (s : state RelatedQuery) : state RelatedQuery :=
  stateOf (applyScope scopeMethod s).

(** Everything of the state but the related query and the allocator. *)
Definition untouched (s s' : state RelatedQuery) : Prop :=
  parent (this s') = parent (this s)
  ∧ related (this s') = related (this s)
  ∧ fromKey (this s') = fromKey (this s)
  ∧ toKey (this s') = toKey (this s)
  ∧ uuids s' = uuids s
  ∧ effects s' = effects s
  ∧ nextId s ≤ nextId s'.

(** Nothing of the state but the allocator has changed. *)
Definition allocatedOnly (s s' : state RelatedQuery) : Prop :=
  this s' = this s
  ∧ uuids s' = uuids s
  ∧ effects s' = effects s
  ∧ nextId s ≤ nextId s'.

(** [this.parent = p] *)
Definition withParent (p : Instance) (r : Relation RelatedQuery)
  : Relation RelatedQuery :=
  {| parent := p; related := related r; fromKey := fromKey r; toKey := toKey r;
     relatedQuery := relatedQuery r |}.

End WithQuery.

Definition isNullish (v : value) : Prop := v = VPrim PUndef ∨ v = VPrim PNull.

(** The warning [save] logs when the parent's own key is falsy, as a
    list: empty when it is not. *)
Definition falsyKeyWarning (own : value) (fromKey : string) : list effect :=
  if truthyV own then []
  else [Warn ("Trying to save relationship with " +:+ fromKey
                +:+ " as primaryKey, whose value is falsy")].

End EmbedsOneMoreSpec.

(** ** Vocabulary for the schema builder *)

Module SchemaMoreSpec.

Import Schema SchemaSpec.

(** [o[k]] on an object literal. *)
Fixpoint readProp (k : string) (o : object) : prim :=
  match o with
  | [] => PUndef
  | (k', v) :: o' => if String.eqb k' k then v else readProp k o'
  end.

(** A declaration that the builder takes: every [dropIndex], and an
    [index] with a name and at least one key. *)
Definition taken (d : decl) : Prop :=
  match d with
  | Index name keys options => truthy name = true ∧ ∃ k, keys = Some k ∧ k ≠ []
  | DropIndex _ => True
  end.

(** An [index] call without a name or without keys. *)
Definition refused (d : decl) : Prop :=
  ∃ name keys options,
    d = Index name keys options
    ∧ (truthy name = false ∨ keys = None ∨ keys = Some []).

Definition nullish (p : prim) : Prop := p = PUndef ∨ p = PNull.

End SchemaMoreSpec.

(** ** Further sample data *)

Module MoreSamples.

Import Pager.

(** A collection that has rows on every page, however far one goes. *)
Definition endlessDriver : Driver nat :=
  {| execCount := λ _, None; execFind := λ q, [Z.to_nat (default 0%Z (optSkip q))] |}.



End MoreSamples.

(** * Properties *)

(** ** Connection pool *)

Module PoolFacts.

Import Database PoolSpec Samples.

Lemma truthy_str s : truthy (PStr s) = true ↔ s ≠ "".
Proof.
  simpl. destruct (String.eqb_spec s ""); simpl; split; congruence.
Qed.

Lemma truthy_ofOpt o : truthy (ofOpt o) = true ↔ isSet o.
Proof.
  destruct o as [v|]; unfold ofOpt.
  - split.
    + intros H. exists v. split; [done|]. by apply truthy_str.
    + intros (w & [= <-] & Hw). by apply truthy_str.
  - split; [done|]. by intros (w & ? & _).
Qed.

Lemma security_credentials env : credentials env (security env).
Proof.
  unfold security.
  destruct (truthy (ofOpt (DB_USER env))) eqn:Hu.
  - apply truthy_ofOpt in Hu as (u & Hu & Hne).
    destruct (truthy (ofOpt (DB_PASSWORD env))) eqn:Hp; simpl.
    + apply truthy_ofOpt in Hp as (p & Hp & Hpne).
      rewrite Hu, Hp. simpl. by eapply cred_user_password.
    + rewrite Hu. simpl. eapply cred_user_only; [done..|].
      intros Hs. apply truthy_ofOpt in Hs. congruence.
  - simpl. apply cred_none. intros Hs. apply truthy_ofOpt in Hs. congruence.
Qed.

Lemma authString_queryPart c : queryPart c (authString c).
Proof.
  unfold authString. destruct (auth c) as [a|] eqn:Ha.
  - destruct (truthy (source a) && truthy (mechanism a)) eqn:Ht.
    + apply andb_true_iff in Ht as [Hs Hm]. by eapply query_auth.
    + apply query_none. intros a' Ha'.
      assert (a' = a) as -> by congruence. done.
  - apply query_none. intros a' Ha'. congruence.
Qed.

(** Settle the [decide]s on concrete handles left by evaluation. *)
Ltac settle_decide :=
  repeat first
    [ rewrite decide_True by (cbn; first [lia | done])
    | rewrite decide_False by (cbn; first [lia | done]) ].

(** A call that finds its key in the pool answers with the pooled
    handle and changes nothing. *)
Lemma connection_hit Config env name key h s :
  _resolveConnectionKey Config name = inr key →
  connectionPools s !! key = Some h →
  connection Config env name s = inr (Resolved h, s).
Proof. intros Hk Hp. unfold connection. by rewrite Hk, Hp. Qed.

(** A call that misses starts one connect and leaves the pool alone. *)
Lemma connection_miss Config env name key c s :
  _resolveConnectionKey Config name = inr key →
  connectionPools s !! key = None →
  Config !! ("database." +:+ key) = Some (CfgDb c) →
  connection Config env name s =
    inr (Awaiting (length (connects s)),
         {| connectionPools := connectionPools s;
            connects := connects s ++ [connectionString env (connection_ c)];
            inflight := inflight s ++ [(length (connects s), key)];
            closed := closed s |}).
Proof. intros Hk Hp Hc. unfold connection. by rewrite Hk, Hp, Hc. Qed.

(** Calls that are awaited one after the other share one handle: the
    second call opens nothing. *)
Lemma await_connection_twice Config env name key c :
  _resolveConnectionKey Config name = inr key →
  Config !! ("database." +:+ key) = Some (CfgDb c) →
  ∃ s1,
    await_connection Config env name initial = Return 0%nat s1
    ∧ await_connection Config env name s1 = Return 0%nat s1
    ∧ connects s1 = [connectionString env (connection_ c)]
    ∧ connectionPools s1 = {[key := 0%nat]}.
Proof.
  intros Hk Hc. eexists. split; [|split; [|split]].
  - unfold await_connection.
    rewrite (connection_miss _ _ _ key c) by done.
    unfold connect_done. cbn. settle_decide. cbn.
    rewrite lookup_insert_eq. reflexivity.
  - unfold await_connection.
    rewrite (connection_hit _ _ _ key 0%nat); [done|done|].
    simpl. apply lookup_insert_eq.
  - done.
  - simpl. by rewrite insert_empty.
Qed.

(** C1 (the code departs from the specification here). A second call
    for a name made before the connect of the first call has completed
    misses the pool as well: it opens a second handle for the same name.
    When both connects have completed, two handles are live and the pool
    holds the second one only. *)
Theorem connection_before_connect_done_opens_again Config env name key c :
  _resolveConnectionKey Config name = inr key →
  Config !! ("database." +:+ key) = Some (CfgDb c) →
  ∃ s1 s2 s3 s4,
    connection Config env name initial = inr (Awaiting 0%nat, s1)
    ∧ connection Config env name s1 = inr (Awaiting 1%nat, s2)
    ∧ connect_done 0%nat s2 = Some (0%nat, s3)
    ∧ connect_done 1%nat s3 = Some (1%nat, s4)
    ∧ length (connects s4) = 2%nat
    ∧ liveHandles s4 = [0%nat; 1%nat]
    ∧ connectionPools s4 = {[key := 1%nat]}.
Proof.
  intros Hk Hc. do 4 eexists.
  split; [by apply (connection_miss _ _ _ key c)|].
  split; [by apply (connection_miss _ _ _ key c)|].
  split.
  { unfold connect_done. cbn. settle_decide. cbn.
    rewrite lookup_insert_eq. reflexivity. }
  split.
  { unfold connect_done. cbn. settle_decide. cbn.
    rewrite lookup_insert_eq. reflexivity. }
  split; [done|]. split.
  - unfold liveHandles, live. cbn. settle_decide. by vm_compute.
  - cbn. by rewrite insert_insert_eq, insert_empty.
Qed.

Lemma connection_before_connect_done_opens_again_witness :
  _resolveConnectionKey sampleConfig "default" = inr "mongo"
  ∧ sampleConfig !! ("database." +:+ "mongo")
    = Some (CfgDb {| connection_ := localApp; prefix := PUndef |})
  ∧ ∃ s1 s2 s3 s4,
      connection sampleConfig sampleEnv "default" initial = inr (Awaiting 0%nat, s1)
      ∧ connection sampleConfig sampleEnv "default" s1 = inr (Awaiting 1%nat, s2)
      ∧ connect_done 0%nat s2 = Some (0%nat, s3)
      ∧ connect_done 1%nat s3 = Some (1%nat, s4)
      ∧ length (connects s4) = 2%nat
      ∧ liveHandles s4 = [0%nat; 1%nat]
      ∧ connectionPools s4 = {[ "mongo" := 1%nat ]}.
Proof.
  split; [reflexivity|]. split; [reflexivity|].
  apply (connection_before_connect_done_opens_again sampleConfig sampleEnv
           "default" "mongo" {| connection_ := localApp; prefix := PUndef |});
    reflexivity.
Defined.

Lemma resolve_nonempty Config name key :
  name ≠ "" → _resolveConnectionKey Config name = inr key → key ≠ "".
Proof.
  intros Hn. unfold _resolveConnectionKey.
  destruct (String.eqb name "default").
  - destruct (Config !! "database.connection") as [[c|d]|]; [| |done].
    + destruct (truthy (PStr c)) eqn:Ht; [|done].
      intros [= <-]. by apply truthy_str.
    + by intros [= <-].
  - by intros [= <-].
Qed.

(** C8. On a pool miss the call issues one connect whose URI is
    "mongodb://" credentials host ":" port "/" database query, where the
    credentials are user:password@ when both variables are set, user@
    when only the user is set and empty otherwise, and the query carries
    authSource and authMechanism. *)
Theorem connection_uri_format Config env name key c s :
  _resolveConnectionKey Config name = inr key →
  connectionPools s !! key = None →
  Config !! ("database." +:+ key) = Some (CfgDb c) →
  ∃ h s' cred query,
    connection Config env name s = inr (Awaiting h, s')
    ∧ connects s' =
        connects s ++
          ["mongodb://" +:+ cred +:+ toStr (host (connection_ c)) +:+ ":"
             +:+ toStr (port (connection_ c)) +:+ "/"
             +:+ toStr (database (connection_ c)) +:+ query]
    ∧ credentials env cred
    ∧ queryPart (connection_ c) query.
Proof.
  intros Hk Hp Hc.
  exists (length (connects s)). eexists.
  exists (security env), (authString (connection_ c)).
  split; [by apply (connection_miss _ _ _ key c)|].
  split; [reflexivity|].
  split; [apply security_credentials | apply authString_queryPart].
Qed.

Lemma connection_uri_format_witness :
  _resolveConnectionKey sampleConfig "default" = inr "mongo"
  ∧ connectionPools initial !! "mongo" = None
  ∧ sampleConfig !! ("database." +:+ "mongo")
    = Some (CfgDb {| connection_ := localApp; prefix := PUndef |})
  ∧ ∃ h s' cred query,
      connection sampleConfig sampleEnv "default" initial = inr (Awaiting h, s')
      ∧ connects s' =
          connects initial ++
            ["mongodb://" +:+ cred +:+ "localhost" +:+ ":" +:+ "27017" +:+ "/"
               +:+ "app" +:+ query]
      ∧ credentials sampleEnv cred
      ∧ queryPart localApp query.
Proof.
  split; [reflexivity|]. split; [reflexivity|]. split; [reflexivity|].
  apply (connection_uri_format sampleConfig sampleEnv "default" "mongo"
           {| connection_ := localApp; prefix := PUndef |} initial);
    reflexivity.
Defined.

(** A key that is in the pool is closed alone. *)
Lemma close_present_key Config name key h s :
  name ≠ "" →
  _resolveConnectionKey Config name = inr key →
  connectionPools s !! key = Some h →
  close Config (Some name) s =
    inr {| connectionPools := delete key (connectionPools s);
           connects := connects s;
           inflight := inflight s;
           closed := closed s ++ [h] |}.
Proof.
  intros Hn Hk Hp. unfold close.
  assert (truthy (ofOpt (Some name)) = true) as -> by by apply truthy_str.
  simpl default. rewrite Hk. simpl.
  assert (negb (String.eqb key "") = true) as ->.
  { apply (truthy_str key). by eapply resolve_nonempty. }
  by rewrite Hp.
Qed.

(** C2 (the code departs from the specification here). [close] with a
    name whose key is not in the pool falls through to the branch that
    closes all: every pooled handle is closed and the pool is emptied. *)
Theorem close_absent_key_closes_all Config name key s :
  name ≠ "" →
  _resolveConnectionKey Config name = inr key →
  connectionPools s !! key = None →
  close Config (Some name) s =
    inr {| connectionPools := ∅;
           connects := connects s;
           inflight := inflight s;
           closed := closed s ++ (map_to_list (connectionPools s)).*2 |}.
Proof.
  intros Hn Hk Hp. unfold close.
  assert (truthy (ofOpt (Some name)) = true) as -> by by apply truthy_str.
  simpl default. rewrite Hk. simpl.
  assert (negb (String.eqb key "") = true) as ->.
  { apply (truthy_str key). by eapply resolve_nonempty. }
  by rewrite Hp.
Qed.

Lemma close_absent_key_closes_all_witness :
  "b" ≠ ""
  ∧ _resolveConnectionKey ∅ "b" = inr "b"
  ∧ connectionPools poolA !! "b" = None
  ∧ close ∅ (Some "b") poolA =
      inr {| connectionPools := ∅;
             connects := ["mongodb://localhost:27017/a"];
             inflight := [];
             closed := [0%nat] |}.
Proof.
  split; [done|]. split; [reflexivity|]. split; [reflexivity|].
  rewrite (close_absent_key_closes_all ∅ "b" "b" poolA); [reflexivity|done..].
Defined.

End PoolFacts.

(** ** Pager *)

Module PagerFacts.

Import Pager PagerSpec Samples.

Lemma perPage_default perPage :
  (if truthyN perPage then default 0%Z perPage else 20%Z) = perPageOr20 perPage.
Proof.
  destruct perPage as [p|]; [|done]. unfold truthyN. simpl.
  by destruct (p =? 0)%Z.
Qed.

Lemma pageQuery_again base p pp p' pp' :
  pageQuery (pageQuery base p pp) p' pp' = pageQuery base p' pp'.
Proof. reflexivity. Qed.

Section Facts.

Context {Row : Type}.
Implicit Types (s : state Row) (driver : Driver Row) (rows : list Row)
  (pages : list (list Row)).

Lemma forPage_positive z perPage s :
  (0 < z)%Z →
  forPage (Some z) perPage s =
    Return (pageQuery (this s) z (perPageOr20 perPage))
           {| this := pageQuery (this s) z (perPageOr20 perPage);
              trace := trace s |}.
Proof.
  intros Hz. unfold forPage, bind. simpl.
  assert ((0 <? z)%Z = true) as -> by lia. simpl.
  rewrite perPage_default. reflexivity.
Qed.

Lemma forPage_invalid page perPage s :
  ¬ positiveInteger page →
  ∃ msg, forPage page perPage s = Throw (InvalidArgumentException msg) s.
Proof.
  intros Hn. unfold forPage, bind. destruct page as [z|]; simpl.
  - destruct (0 <? z)%Z eqn:Hz; simpl; [|by eexists].
    exfalso. apply Hn. exists z. split; [done|lia].
  - by eexists.
Qed.

(** C4. [forPage] fails with an invalid-argument error for every page
    that is not a positive integer (0 and -1 among them); for a positive
    page it returns the query restricted to skip((page - 1) * perPage)
    and limit(perPage), where perPage is 20 when omitted. *)
Theorem forPage_spec page perPage s :
  (¬ positiveInteger page →
     ∃ msg, forPage page perPage s = Throw (InvalidArgumentException msg) s)
  ∧ (∀ z, page = Some z → (0 < z)%Z →
       ∃ q s',
         forPage page perPage s = Return q s'
         ∧ q = find (limit (perPageOr20 perPage)
                       (skip ((z - 1) * perPageOr20 perPage)%Z (this s)))
         ∧ this s' = q ∧ trace s' = trace s
         ∧ (perPage = None → optLimit q = Some 20%Z))
  ∧ (∃ msg, forPage (Some 0%Z) perPage s = Throw (InvalidArgumentException msg) s)
  ∧ (∃ msg, forPage (Some (-1)%Z) perPage s = Throw (InvalidArgumentException msg) s).
Proof.
  split; [apply forPage_invalid|]. split.
  - intros z -> Hz. do 2 eexists. split; [by apply forPage_positive|].
    split; [reflexivity|]. split; [reflexivity|]. split; [reflexivity|].
    by intros ->.
  - split; apply forPage_invalid; intros (z & [= <-] & Hz); lia.
Qed.

Lemma exclude_order (l : list Statement) :
  filter (λ statement, grouping statement ∉ excludeAttrFromCount) l
  = filter (λ statement, grouping statement ≠ "order") l.
Proof.
  apply list_filter_iff. intros x. unfold excludeAttrFromCount.
  rewrite list_elem_of_singleton. done.
Qed.

Lemma toSafeInteger_safe z :
  (- MAX_SAFE_INTEGER ≤ z ≤ MAX_SAFE_INTEGER)%Z → toSafeInteger (Some z) = z.
Proof. unfold toSafeInteger. lia. Qed.

Lemma paginate_parsed_zero_count driver page perPage countByQuery s :
  (0 < toSafeInteger page)%Z →
  zeroOrAbsent (execCount driver (countQuery countByQuery (this s))) →
  paginate driver page perPage countByQuery s =
    Return {| total := 0; perPage := perPageOr20 (Some (toSafeInteger perPage));
              page := toSafeInteger page; lastPage := 1; data := [] |}
           {| this := this s;
              trace := trace s ++
                [EvCount (countQuery countByQuery (this s))
                   (execCount driver (countQuery countByQuery (this s)))] |}.
Proof.
  intros Hp Hc. unfold paginate, bind. simpl.
  assert ((0 <? toSafeInteger page)%Z = true) as -> by lia. simpl.
  rewrite exclude_order. fold (countQuery countByQuery (this s)).
  rewrite perPage_default.
  assert (negb (truthyN (execCount driver (countQuery countByQuery (this s))))
          || bool_decide (parseInt (execCount driver (countQuery countByQuery (this s)))
                          = Some 0%Z) = true) as ->.
  { destruct Hc as [-> | ->]; done. }
  reflexivity.
Qed.

(** C3. When the count is zero or absent, [paginate] returns total 0,
    the given page and perPage (20 for an omitted perPage), lastPage 1
    and empty data; the only query issued is the count query. *)
Theorem paginate_zero_count driver (page : Z) perPage countByQuery s :
  (0 < page ≤ MAX_SAFE_INTEGER)%Z →
  (∀ p, perPage = Some p → (- MAX_SAFE_INTEGER ≤ p ≤ MAX_SAFE_INTEGER)%Z) →
  zeroOrAbsent (execCount driver (countQuery countByQuery (this s))) →
  ∃ s',
    paginate driver (Some page) perPage countByQuery s =
      Return {| total := 0; perPage := perPageOr20 perPage; page := page;
                lastPage := 1; data := [] |} s'
    ∧ this s' = this s
    ∧ trace s' = trace s ++
        [EvCount (countQuery countByQuery (this s))
           (execCount driver (countQuery countByQuery (this s)))].
Proof.
  intros Hp Hpp Hc.
  exists {| this := this s;
            trace := trace s ++
              [EvCount (countQuery countByQuery (this s))
                 (execCount driver (countQuery countByQuery (this s)))] |}.
  split; [|split; reflexivity].
  rewrite paginate_parsed_zero_count; [|rewrite toSafeInteger_safe; lia|done].
  rewrite toSafeInteger_safe by lia. do 2 f_equal.
  destruct perPage as [p|]; [|done].
  by rewrite toSafeInteger_safe by (by apply Hpp).
Qed.

(** *** [chunk] over a fixed data set *)

Lemma pageCount_spec N L i : (0 < L)%nat → (i < pageCount N L ↔ i * L < N)%nat.
Proof.
  intros HL. unfold pageCount.
  pose proof (Nat.div_mod_eq (N + L - 1) L) as Hd.
  pose proof (Nat.mod_upper_bound (N + L - 1) L) as Hm.
  split; nia.
Qed.

Lemma pageRows_nonempty rows L i :
  (0 < L)%nat → (i < pageCount (length rows) L)%nat → pageRows rows L i ≠ [].
Proof.
  intros HL Hi. apply pageCount_spec in Hi; [|done].
  unfold pageRows. intros He. apply take_nil_inv in He as [->|He]; [lia|].
  apply drop_nil_inv in He. lia.
Qed.

Lemma pageRows_empty rows L i :
  (0 < L)%nat → (pageCount (length rows) L ≤ i)%nat → pageRows rows L i = [].
Proof.
  intros HL Hi. unfold pageRows. rewrite drop_ge; [by rewrite take_nil|].
  destruct (decide (i * L < length rows)%nat) as [Hlt|]; [|lia].
  apply pageCount_spec in Hlt; [lia|done].
Qed.

Lemma concat_pages rows L k :
  concat (map (pageRows rows L) (seq 0 k)) = take (k * L) rows.
Proof.
  induction k as [|k IH]; [done|].
  rewrite seq_S, map_app, concat_app, IH. simpl. rewrite app_nil_r.
  unfold pageRows. rewrite take_take_drop. f_equal. lia.
Qed.

Lemma pagesOf_concat rows L : (0 < L)%nat → concat (pagesOf rows L) = rows.
Proof.
  intros HL. unfold pagesOf. rewrite concat_pages. apply take_ge.
  destruct (decide (pageCount (length rows) L * L < length rows)%nat) as [Hlt|];
    [|lia].
  apply pageCount_spec in Hlt; [lia|done].
Qed.

Lemma pagesOf_nonempty rows L :
  (0 < L)%nat → Forall (λ pg, pg ≠ []) (pagesOf rows L).
Proof.
  intros HL. unfold pagesOf. apply Forall_map, Forall_forall.
  intros i Hi. apply elem_of_seq in Hi. apply pageRows_nonempty; [done|lia].
Qed.

Lemma static_find rows base (L : Z) i :
  (0 < L)%Z →
  execFind (staticDriver rows) (pageQuery base (Z.of_nat i + 1) L)
  = pageRows rows (Z.to_nat L) i.
Proof.
  intros HL. unfold staticDriver, pageQuery, pageRows. simpl.
  do 2 f_equal. nia.
Qed.

Lemma chunkTrace_base base p0 (L p : Z) pages :
  chunkTrace (pageQuery base p0 L) L p pages = chunkTrace base L p pages.
Proof.
  revert p. induction pages as [|pg rest IH]; intros p; simpl.
  - done.
  - by rewrite IH.
Qed.

Lemma chunk_from rows limit (L : Z) d :
  perPageOr20 limit = L →
  (0 < L)%Z →
  ∀ i fuel s,
    (i + d = pageCount (length rows) (Z.to_nat L))%nat →
    (d < fuel)%nat →
    chunk (staticDriver rows) fuel limit (Some (Z.of_nat i + 1)%Z) s =
      Some (Return tt
              {| this := pageQuery (this s) (Z.of_nat (i + d) + 1) L;
                 trace := trace s ++
                   chunkTrace (this s) L (Z.of_nat i + 1)
                     (map (pageRows rows (Z.to_nat L)) (seq i d)) |}).
Proof.
  intros Hlimit HL. induction d as [|d IH]; intros i fuel s Hk Hf.
  - destruct fuel as [|fuel]; [lia|]. simpl chunk.
    assert (truthyN (Some (Z.of_nat i + 1)%Z) = true) as ->.
    { unfold truthyN. simpl. lia. }
    simpl default. unfold bind at 1.
    rewrite forPage_positive by lia. rewrite Hlimit.
    unfold yieldFind, bind, emit, modify, ret. cbn [this trace].
    rewrite static_find by done.
    rewrite pageRows_empty by lia.
    rewrite bool_decide_false by (simpl; lia).
    by rewrite Nat.add_0_r.
  - destruct fuel as [|fuel]; [lia|]. simpl chunk.
    assert (truthyN (Some (Z.of_nat i + 1)%Z) = true) as ->.
    { unfold truthyN. simpl. lia. }
    simpl default. unfold bind at 1.
    rewrite forPage_positive by lia. rewrite Hlimit.
    unfold yieldFind, bind, emit, modify, ret. cbn [this trace].
    rewrite static_find by done.
    assert (pageRows rows (Z.to_nat L) i ≠ []) as Hne.
    { apply pageRows_nonempty; lia. }
    rewrite bool_decide_true
      by (destruct (pageRows rows (Z.to_nat L) i); [done|simpl; lia]).
    replace (Z.of_nat i + 1 + 1)%Z with (Z.of_nat (S i) + 1)%Z by lia.
    rewrite IH by lia. cbn [this trace].
    rewrite pageQuery_again, chunkTrace_base.
    replace (S i + d)%nat with (i + S d)%nat by lia.
    do 3 f_equal. rewrite <- !app_assoc. f_equal. simpl.
    do 3 f_equal. lia.
Qed.

(** C5. Over a fixed data set of N rows and with a limit L (20 when the
    limit is omitted), [chunk] returns; it fetches the pages in order
    from page 1, calls the callback once for each non-empty page with
    the rows of that page, and the fetch after the last callback is the
    one that comes back empty, after which nothing happens. The pages
    are the rows cut into consecutive runs of L: for 250 rows and L =
    100 they have 100, 100 and 50 rows. *)
Theorem chunk_walks_pages rows limit fuel s :
  (0 < perPageOr20 limit)%Z →
  (pageCount (length rows) (Z.to_nat (perPageOr20 limit)) < fuel)%nat →
  ∃ s',
    chunk (staticDriver rows) fuel limit None s = Some (Return tt s')
    ∧ trace s' =
        trace s ++ chunkTrace (this s) (perPageOr20 limit) 1
                     (pagesOf rows (Z.to_nat (perPageOr20 limit)))
    ∧ Forall (λ pg, pg ≠ []) (pagesOf rows (Z.to_nat (perPageOr20 limit)))
    ∧ concat (pagesOf rows (Z.to_nat (perPageOr20 limit))) = rows
    ∧ length (pagesOf rows (Z.to_nat (perPageOr20 limit)))
      = pageCount (length rows) (Z.to_nat (perPageOr20 limit))
    ∧ length <$> pagesOf (seq 0 250) 100 = [100; 100; 50]%nat.
Proof.
  intros HL Hf. eexists. split.
  - assert (chunk (staticDriver rows) fuel limit None s
            = chunk (staticDriver rows) fuel limit (Some (Z.of_nat 0 + 1)%Z) s)
      as -> by (by destruct fuel).
    by apply (chunk_from rows limit (perPageOr20 limit)
                (pageCount (length rows) (Z.to_nat (perPageOr20 limit)))).
  - split; [reflexivity|].
    split; [apply pagesOf_nonempty; lia|].
    split; [apply pagesOf_concat; lia|].
    split; [|by vm_compute].
    unfold pagesOf. by rewrite length_map, length_seq.
Qed.

End Facts.

(** With 23 rows, [paginate(2, 5)] reports five pages and returns the
    second one. *)
Example paginate_second_of_five_pages :
  returned (paginate (staticDriver (seq 0 23)) (Some 2%Z) (Some 5%Z) None usersState)
  = Some {| total := 23; perPage := 5; page := 2; lastPage := 5;
            data := [5; 6; 7; 8; 9]%nat |}.
Proof. reflexivity. Qed.

Lemma forPage_spec_witness :
  (0 < 3)%Z
  ∧ ∃ q s',
      forPage (Some 3%Z) (Some 10%Z) usersState = Return q s'
      ∧ optSkip q = Some 20%Z
      ∧ optLimit q = Some 10%Z.
Proof.
  split; [lia|].
  destruct (forPage_spec (Some 3%Z) (Some 10%Z) usersState) as (_ & Hpos & _).
  destruct (Hpos 3%Z eq_refl ltac:(lia)) as (q & s' & Hq & Heq & _).
  exists q, s'. split; [exact Hq|]. rewrite Heq. split; reflexivity.
Defined.

Lemma paginate_zero_count_witness :
  (0 < 1 ≤ MAX_SAFE_INTEGER)%Z
  ∧ zeroOrAbsent (execCount (staticDriver (@nil nat)) (countQuery None usersQuery))
  ∧ ∃ s',
      paginate (staticDriver (@nil nat)) (Some 1%Z) (Some 10%Z) None usersState =
        Return {| total := 0; perPage := 10; page := 1; lastPage := 1; data := [] |} s'
      ∧ Pager.this s' = usersQuery
      ∧ trace s' = [EvCount (countQuery None usersQuery) (Some 0%Z)].
Proof.
  split; [unfold MAX_SAFE_INTEGER; lia|]. split; [by right|].
  apply (paginate_zero_count (staticDriver (@nil nat)) 1%Z (Some 10%Z) None usersState).
  - unfold MAX_SAFE_INTEGER. lia.
  - intros p [= <-]. unfold MAX_SAFE_INTEGER. lia.
  - by right.
Defined.

Lemma chunk_walks_pages_witness :
  (0 < 100)%Z
  ∧ (pageCount (length (seq 0 250)) (Z.to_nat 100) < 5)%nat
  ∧ ∃ s',
      chunk (staticDriver (seq 0 250)) 5 (Some 100%Z) None usersState
        = Some (Return tt s')
      ∧ length <$> callbacksOf (trace s') = [100; 100; 50]%nat
      ∧ length <$> (fetchesOf (trace s')).*2 = [100; 100; 50; 0]%nat.
Proof.
  assert (pageCount (length (seq 0 250)) (Z.to_nat 100) < 5)%nat as Hfuel
    by (vm_compute; lia).
  split; [lia|]. split; [exact Hfuel|].
  destruct (chunk_walks_pages (seq 0 250) (Some 100%Z) 5 usersState
              ltac:(simpl; lia) Hfuel)
    as (s' & Hrun & Htrace & _).
  exists s'. split; [exact Hrun|]. rewrite Htrace. split; vm_compute; reflexivity.
Defined.

End PagerFacts.

(** ** Schema builder *)

Module SchemaFacts.

Import Database Schema SchemaSpec Samples.

Lemma forIn_driverCall {A} (f : A → call) (l : list A) w :
  forIn (λ x, driverCall (f x)) l w
  = Return tt {| pool := pool w; calls := calls w ++ map f l |}.
Proof.
  revert w. induction l as [|x l IH]; intros w; simpl.
  - unfold ret. rewrite app_nil_r. by destruct w.
  - unfold bind, driverCall, modify. rewrite IH. simpl.
    by rewrite <- app_assoc.
Qed.

Lemma forIn_ext {S A} (f g : A → M S unit) (l : list A) :
  Forall (λ x, f x = g x) l → forIn f l = forIn g l.
Proof.
  induction 1 as [|x l Hx _ IH]; simpl; [done|]. by rewrite Hx, IH.
Qed.

Lemma declare_all decls b :
  Forall accepted decls →
  forIn declare decls b =
    Return tt {| collection := collection b;
                 createIndexes := createIndexes b ++ declaredCreates decls;
                 dropIndexes := dropIndexes b ++ declaredDrops decls |}.
Proof.
  intros Hall. revert b. induction Hall as [|d decls Hd _ IH]; intros b; simpl.
  - unfold ret. rewrite !app_nil_r. by destruct b.
  - unfold bind. destruct d as [name keys options|name]; simpl.
    + destruct Hd as (Hn & k & -> & Hk). unfold index. rewrite Hn. simpl.
      rewrite bool_decide_false by (by destruct k).
      unfold modify. rewrite IH. simpl. by rewrite <- app_assoc.
    + unfold dropIndex, modify. rewrite IH. simpl. by rewrite <- app_assoc.
Qed.

Lemma build_calls this w :
  Forall (λ n, n ≠ PUndef ∧ n ≠ PNull) (dropIndexes this) →
  build this w =
    Return tt
      {| pool := pool w;
         calls := calls w
           ++ map (λ d, CollCreateIndex (collection this) (keys d) (options d))
                  (createIndexes this)
           ++ map (λ _, CollDropIndex (collection this) PUndef PUndef)
                  (dropIndexes this) |}.
Proof.
  intros Hd. unfold build, bind. rewrite forIn_driverCall.
  rewrite (forIn_ext _ (λ _, driverCall (CollDropIndex (collection this) PUndef PUndef))).
  - rewrite forIn_driverCall. simpl. by rewrite <- app_assoc.
  - eapply Forall_impl; [exact Hd|]. intros n [Hu Hn]. by destruct n.
Qed.

Lemma declaredDrops_accepted decls :
  Forall accepted decls →
  Forall (λ n, n ≠ PUndef ∧ n ≠ PNull) (declaredDrops decls).
Proof.
  induction 1 as [|d decls Hd _ IH]; simpl; [constructor|].
  destruct d; simpl; [done|]. by constructor.
Qed.

(** C9 (the code departs from the specification here). After any
    sequence of accepted [index] and [dropIndex] declarations, [build]
    issues the index creations in the order declared, each with its keys
    and options, and then one [dropIndex] call per queued drop; but
    every such call receives [undefined] for both arguments, never the
    name that was declared. *)
Theorem build_after_declarations c decls w :
  Forall accepted decls →
  ∃ b w',
    forIn declare decls (newSchemaBuilder c) = Return tt b
    ∧ build b w = Return tt w'
    ∧ pool w' = pool w
    ∧ calls w' =
        calls w
          ++ map (λ d, CollCreateIndex c (keys d) (options d)) (declaredCreates decls)
          ++ map (λ _, CollDropIndex c PUndef PUndef) (declaredDrops decls).
Proof.
  intros Hall. do 2 eexists.
  split; [by apply declare_all|].
  split; [apply build_calls; simpl; by apply declaredDrops_accepted|].
  split; reflexivity.
Qed.

Lemma build_after_declarations_witness :
  Forall accepted emailIndexThenDrop
  ∧ ∃ b w',
      forIn declare emailIndexThenDrop (newSchemaBuilder users) = Return tt b
      ∧ build b {| pool := initial; calls := [] |} = Return tt w'
      ∧ calls w' =
          [ CollCreateIndex users [("email", PInt 1)] [("name", PStr "email_idx")];
            CollDropIndex users PUndef PUndef ].
Proof.
  assert (Forall accepted emailIndexThenDrop) as Hacc.
  { repeat constructor; [by eexists|done|done]. }
  split; [exact Hacc|].
  destruct (build_after_declarations users emailIndexThenDrop
              {| pool := initial; calls := [] |} Hacc)
    as (b & w' & Hb & Hw & _ & Hc).
  exists b, w'. split; [exact Hb|]. split; [exact Hw|]. exact Hc.
Defined.

Lemma forIn_grows {A} (f : A → M world unit) (l : list A) :
  (∀ x w, ∃ l', calls (stateOf (f x w)) = calls w ++ l') →
  ∀ w, ∃ l', calls (stateOf (forIn f l w)) = calls w ++ l'.
Proof.
  intros Hf. induction l as [|x l IH]; intros w; simpl.
  - exists []. by rewrite app_nil_r.
  - unfold bind. destruct (Hf x w) as [l1 H1].
    destruct (f x w) as [[] w1|e w1]; simpl in *.
    + destruct (IH w1) as [l2 H2]. exists (l1 ++ l2).
      by rewrite H2, H1, app_assoc.
    + by exists l1.
Qed.

Lemma driverCall_grows c w :
  ∃ l', calls (stateOf (driverCall c w)) = calls w ++ l'.
Proof. by exists [c]. Qed.

Lemma build_grows b w : ∃ l', calls (stateOf (build b w)) = calls w ++ l'.
Proof.
  unfold build, bind.
  destruct (forIn_grows
              (λ createIndex, driverCall (CollCreateIndex (collection b)
                                            (keys createIndex) (options createIndex)))
              (createIndexes b) (λ x w0, driverCall_grows _ w0) w) as [l1 H1].
  match goal with |- context [match ?m with _ => _ end] => destruct m as [[] w1|e w1] end;
    simpl in *; [|by exists l1].
  match goal with |- context [forIn ?f ?l w1] =>
    destruct (forIn_grows f l) with (w := w1) as [l2 H2] end.
  - intros x w0. destruct x; simpl; first [by exists [] ; rewrite app_nil_r
                                          | apply driverCall_grows].
  - exists (l1 ++ l2). by rewrite H2, H1, app_assoc.
Qed.

(** C10. [createCollectionIfNotExists] is the same function as
    [createCollection] and [dropIfExists] the same function as
    [dropCollection]; each hands the name to the driver as soon as the
    default connection is there, with no driver call before it. *)
Theorem schema_pairs_identical Config env :
  createCollectionIfNotExists Config env = createCollection Config env
  ∧ dropIfExists Config env = dropCollection Config env
  ∧ (∀ collectionName callback w db p,
       await_connection Config env "default" (pool w) = Return db p →
       ∃ rest,
         calls (stateOf (createCollectionIfNotExists Config env collectionName
                           callback w))
         = calls w ++ DbCreateCollection db collectionName :: rest)
  ∧ (∀ collectionName w db p,
       await_connection Config env "default" (pool w) = Return db p →
       calls (stateOf (dropIfExists Config env collectionName w))
       = calls w ++ [DbDropCollection db collectionName]).
Proof.
  split; [reflexivity|]. split; [reflexivity|]. split.
  - intros n cb w db p Hdb.
    unfold createCollectionIfNotExists, bind, liftPool. rewrite Hdb.
    unfold db_createCollection, bind, driverCall, modify, ret, runCallback.
    cbn [pool calls].
    destruct (cb (newSchemaBuilder {| ofDb := db; collName := n |}))
      as [[] b|e b]; simpl.
    + match goal with |- context [build b ?w1] =>
        destruct (build_grows b w1) as [l' Hl'] end.
      rewrite Hl'. simpl. rewrite <- app_assoc. by eexists.
    + by eexists.
  - intros n w db p Hdb.
    unfold dropIfExists, bind, liftPool. rewrite Hdb. reflexivity.
Qed.

Lemma schema_pairs_identical_witness :
  await_connection sampleConfig sampleEnv "default" initial
  = Return 0%nat
      {| connectionPools := {[ "mongo" := 0%nat ]};
         connects := [connectionString sampleEnv localApp];
         inflight := []; closed := [] |}
  ∧ calls (stateOf (dropIfExists sampleConfig sampleEnv "users"
                      {| pool := initial; calls := [] |}))
    = [DbDropCollection 0%nat "users"]
  ∧ dropIfExists sampleConfig sampleEnv = dropCollection sampleConfig sampleEnv.
Proof.
  assert (await_connection sampleConfig sampleEnv "default" initial
          = Return 0%nat
              {| connectionPools := {[ "mongo" := 0%nat ]};
                 connects := [connectionString sampleEnv localApp];
                 inflight := []; closed := [] |}) as Hdb by reflexivity.
  destruct (schema_pairs_identical sampleConfig sampleEnv) as (_ & Heq & _ & Hdrop).
  split; [exact Hdb|]. split; [|exact Heq].
  exact (Hdrop "users" {| pool := initial; calls := [] |} _ _ Hdb).
Defined.

End SchemaFacts.

(** ** Documents *)

Module DocFacts.

Import Doc DocSpec.

Lemma Forall_range_weaken (l : list nat) a b a' b' :
  a' ≤ a → b ≤ b' → Forall (λ i, a ≤ i < b) l → Forall (λ i, a' ≤ i < b') l.
Proof.
  intros Ha Hb H. eapply Forall_impl; [exact H|]. intros i. simpl. lia.
Qed.

Lemma cloneProps_spec (fields : list (string * value)) :
  Forall (λ kv, cloneSpec kv.2) fields →
  ∀ n,
    let r := mapAlloc (λ kv m, let c := cloneDeep kv.2 m in ((kv.1, c.1), c.2))
                      fields n in
    map (λ kv, (kv.1, content kv.2)) r.1 = map (λ kv, (kv.1, content kv.2)) fields
    ∧ n ≤ r.2
    ∧ Forall (λ i, n ≤ i < r.2) (flat_map (λ kv, ids kv.2) r.1).
Proof.
  induction 1 as [|kv fields Hkv _ IH]; intros n; simpl.
  - split; [done|]. split; [lia|constructor].
  - destruct (Hkv n) as (Hc & Hle & Hids).
    destruct (IH (cloneDeep kv.2 n).2) as (Hc' & Hle' & Hids').
    simpl in *. split; [by rewrite Hc, Hc'|]. split; [lia|].
    apply Forall_app. split.
    + eapply Forall_range_weaken; [| |exact Hids]; lia.
    + eapply Forall_range_weaken; [| |exact Hids']; lia.
Qed.

Lemma cloneElems_spec (items : list value) :
  Forall cloneSpec items →
  ∀ n,
    let r := mapAlloc cloneDeep items n in
    map content r.1 = map content items
    ∧ n ≤ r.2
    ∧ Forall (λ i, n ≤ i < r.2) (flat_map ids r.1).
Proof.
  induction 1 as [|x items Hx _ IH]; intros n; simpl.
  - split; [done|]. split; [lia|constructor].
  - destruct (Hx n) as (Hc & Hle & Hids).
    destruct (IH (cloneDeep x n).2) as (Hc' & Hle' & Hids').
    simpl in *. split; [by rewrite Hc, Hc'|]. split; [lia|].
    apply Forall_app. split.
    + eapply Forall_range_weaken; [| |exact Hids]; lia.
    + eapply Forall_range_weaken; [| |exact Hids']; lia.
Qed.

Lemma cloneDeep_spec v : cloneSpec v.
Proof.
  induction v as [p|id fields IH|id items IH] using value_ind; intros n.
  - simpl. split; [done|]. split; [lia|constructor].
  - destruct (cloneProps_spec fields IH (S n)) as (Hc & Hle & Hids).
    simpl in *. split; [by rewrite Hc|]. split; [lia|].
    constructor; [lia|]. eapply Forall_range_weaken; [| |exact Hids]; lia.
  - destruct (cloneElems_spec items IH (S n)) as (Hc & Hle & Hids).
    simpl in *. split; [by rewrite Hc|]. split; [lia|].
    constructor; [lia|]. eapply Forall_range_weaken; [| |exact Hids]; lia.
Qed.

Lemma cloneDeep_deepCopy v n : deepCopyFrom n (cloneDeep v n).1 v.
Proof.
  destruct (cloneDeep_spec v n) as (Hc & _ & Hids). split; [done|].
  eapply Forall_impl; [exact Hids|]. intros i. simpl. lia.
Qed.

Lemma cloneDeep_mono v n : n ≤ (cloneDeep v n).2.
Proof. by destruct (cloneDeep_spec v n) as (_ & Hle & _). Qed.

(** A deep copy made past the objects of the original shares no object
    with it. *)
Lemma deepCopy_disjoint n copy v :
  deepCopyFrom n copy v → allocatedBelow n v →
  ∀ i, i ∈ ids copy → i ∉ ids v.
Proof.
  intros [_ Hc] Hv i Hi Hi'. unfold allocatedBelow in Hv.
  rewrite Forall_forall in Hc. rewrite Forall_forall in Hv.
  specialize (Hc i Hi). specialize (Hv i Hi'). lia.
Qed.

Lemma lookupField_allocated n k fields :
  Forall (λ i, i < n) (flat_map (λ kv, ids kv.2) fields) →
  allocatedBelow n (lookupField k fields).
Proof.
  induction fields as [|[k' x] fields IH]; simpl; intros H.
  - constructor.
  - apply Forall_app in H as [Hx Hf].
    destruct (String.eqb k' k); [done|by apply IH].
Qed.

Lemma getProp_allocated n v k :
  allocatedBelow n v → allocatedBelow n (getProp v k).
Proof.
  destruct v as [p|id fields|id items]; simpl; intros H; try constructor.
  apply Forall_cons in H as [_ H]. by apply lookupField_allocated.
Qed.

Lemma lookup_assignField k x fields : lookupField k (assignField k x fields) = x.
Proof.
  induction fields as [|[k' x'] fields IH]; simpl.
  - by rewrite String.eqb_refl.
  - destruct (String.eqb k' k) eqn:He; simpl.
    + by rewrite String.eqb_refl.
    + by rewrite He.
Qed.

Lemma lookup_assignField_ne k k' x fields :
  k ≠ k' → lookupField k' (assignField k x fields) = lookupField k' fields.
Proof.
  intros Hne. induction fields as [|[k0 x0] fields IH]; simpl.
  - destruct (String.eqb_spec k k'); [done|done].
  - destruct (String.eqb_spec k0 k) as [->|Hk0]; simpl.
    + destruct (String.eqb_spec k k'); [done|done].
    + by rewrite IH.
Qed.

End DocFacts.

(** ** The embedded to-one relation *)

Module EmbedsOneFacts.

Import Doc DocSpec DocFacts EmbedsOne EmbedsOneSpec Samples.

Section Facts.

Context {RelatedQuery : Type}.
Implicit Types (s : state RelatedQuery) (rel : Relation RelatedQuery).

Lemma keyBy_snoc key l row :
  keyBy key (l ++ [row]) = <[keyOf key row := row]> (keyBy key l).
Proof. unfold keyBy. by rewrite foldl_snoc. Qed.

Lemma keyBy_row key results row :
  row ∈ results → is_Some (keyBy key results !! keyOf key row).
Proof.
  induction results as [|x l IH] using rev_ind; [by intros ?%elem_of_nil|].
  rewrite keyBy_snoc. intros [Hin | ->%list_elem_of_singleton]%elem_of_app.
  - destruct (decide (keyOf key x = keyOf key row)) as [->|Hne].
    + rewrite lookup_insert_eq. by eexists.
    + rewrite lookup_insert_ne by done. by apply IH.
  - rewrite lookup_insert_eq. by eexists.
Qed.

(** The row filed under a key is the last row of the result set with
    that key. *)
Lemma keyBy_last key results k row :
  keyBy key results !! k = Some row →
  ∃ before after,
    results = before ++ row :: after
    ∧ keyOf key row = k
    ∧ Forall (λ row', keyOf key row' ≠ k) after.
Proof.
  induction results as [|x l IH] using rev_ind; [done|].
  rewrite keyBy_snoc.
  destruct (decide (keyOf key x = k)) as [<-|Hne].
  - rewrite lookup_insert_eq. intros [= <-]. by exists l, [].
  - rewrite lookup_insert_ne by done. intros H.
    destruct (IH H) as (before & after & -> & Hk & Hafter).
    exists before, (after ++ [x]). rewrite <- app_assoc. split; [done|].
    split; [done|]. apply Forall_app. split; [done|]. by constructor.
Qed.

Lemma traverse_entries {B} (f : value → M (state RelatedQuery) B)
    (I : state RelatedQuery → Prop) (P : value → Prop) (R : value → B → Prop) :
  (∀ v s, P v → I s → ∃ b s', f v s = Return b s' ∧ I s' ∧ R v b) →
  ∀ (l : list (string * value)) s,
    Forall (λ kv, P kv.2) l → I s →
    ∃ l' s',
      traverse (λ kv, let* b := f kv.2 in ret (kv.1, b)) l s = Return l' s'
      ∧ I s'
      ∧ Forall2 (λ kv kb, kb.1 = kv.1 ∧ R kv.2 kb.2) l l'.
Proof.
  intros Hf l. induction l as [|kv l IH]; intros s Hl Hs.
  - exists [], s. split; [done|]. split; [done|constructor].
  - apply Forall_cons in Hl as [Hkv Hl].
    destruct (Hf kv.2 s Hkv Hs) as (b & s1 & Hb & Hs1 & HR).
    destruct (IH s1 Hl Hs1) as (l' & s2 & Hl' & Hs2 & HF).
    exists ((kv.1, b) :: l'), s2. cbn [traverse]. unfold bind at 1 2. rewrite Hb.
    unfold ret at 1. cbv beta iota. unfold bind at 1. rewrite Hl'.
    split; [done|]. split; [done|]. by constructor.
Qed.

Lemma Forall2_keys {B} (R : value → B → Prop)
    (l : list (string * value)) (l' : list (string * B)) :
  Forall2 (λ kv kb, kb.1 = kv.1 ∧ R kv.2 kb.2) l l' → l'.*1 = l.*1.
Proof.
  induction 1 as [|kv kb l l' [Hk _] _ IH]; [done|].
  rewrite !fmap_cons. by rewrite Hk, IH.
Qed.

Lemma Forall2_entry_r {B} (R : value → B → Prop)
    (l : list (string * value)) (l' : list (string * B)) k b :
  Forall2 (λ kv kb, kb.1 = kv.1 ∧ R kv.2 kb.2) l l' →
  (k, b) ∈ l' → ∃ v, (k, v) ∈ l ∧ R v b.
Proof.
  induction 1 as [|[k0 v0] [k1 b1] l l' [Hk HR] _ IH]; [by intros ?%elem_of_nil|].
  simpl in *. subst k1. intros [[= -> ->]|Hin]%elem_of_cons.
  - exists v0. split; [left|done].
  - destruct (IH Hin) as (v & Hv & HRv). exists v. split; [by right|done].
Qed.

Lemma mapValues_spec {B} (f : value → M (state RelatedQuery) B)
    (I : state RelatedQuery → Prop) (P : value → Prop) (R : value → B → Prop)
    (m : gmap string value) s :
  (∀ v s, P v → I s → ∃ b s', f v s = Return b s' ∧ I s' ∧ R v b) →
  (∀ k v, m !! k = Some v → P v) →
  I s →
  ∃ m' s',
    mapValues f m s = Return m' s'
    ∧ I s'
    ∧ (∀ k b, m' !! k = Some b → ∃ v, m !! k = Some v ∧ R v b)
    ∧ (∀ k, is_Some (m !! k) → is_Some (m' !! k)).
Proof.
  intros Hf HP Hs.
  destruct (traverse_entries f I P R Hf (map_to_list m) s) as (l' & s' & Hl' & Hs' & HF).
  { apply Forall_forall. intros [k v] Hkv. apply elem_of_map_to_list in Hkv.
    by eapply HP. }
  { done. }
  exists (list_to_map l'), s'. unfold mapValues. unfold bind at 1. rewrite Hl'.
  split; [done|]. split; [done|].
  assert (NoDup l'.*1) as Hnd.
  { rewrite (Forall2_keys _ _ _ HF). apply NoDup_fst_map_to_list. }
  split.
  - intros k b Hkb. apply elem_of_list_to_map in Hkb; [|done].
    destruct (Forall2_entry_r _ _ _ _ _ HF Hkb) as (v & Hv & HR).
    exists v. split; [by apply elem_of_map_to_list|done].
  - intros k [v Hv].
    destruct (list_to_map l' !! k) as [b|] eqn:Hb; [by eexists|].
    apply not_elem_of_list_to_map in Hb.
    rewrite (Forall2_keys _ _ _ HF) in Hb. exfalso. apply Hb.
    apply list_elem_of_fmap. exists (k, v). split; [done|].
    by apply elem_of_map_to_list.
Qed.

Lemma applyScope_spec scopeMethod s :
  ∃ s1,
    applyScope scopeMethod s = Return tt s1
    ∧ parent (this s1) = parent (this s)
    ∧ related (this s1) = related (this s)
    ∧ fromKey (this s1) = fromKey (this s)
    ∧ toKey (this s1) = toKey (this s)
    ∧ nextId s1 = nextId s.
Proof.
  destruct scopeMethod as [f|]; eexists; (split; [reflexivity|]); by repeat split.
Qed.

Lemma loadEmbedded_row C k n row s :
  isDoc row → related (this s) = C → n ≤ nextId s →
  ∃ w s',
    (let* embedded := liftE (propOf row k) in loadEmbedded embedded) s = Return w s'
    ∧ (related (this s') = C ∧ n ≤ nextId s')
    ∧ loadedFrom C k n row w.
Proof.
  intros (id & fields & ->) HC Hn.
  exists (Wrap {| constructor_ := related (this s);
                  attributes := lookupField k fields;
                  original := (cloneDeep (lookupField k fields) (nextId s)).1;
                  exists_ := true |}),
         {| this := this s;
            nextId := (cloneDeep (lookupField k fields) (nextId s)).2;
            uuids := uuids s; effects := effects s |}.
  split; [reflexivity|].
  cbn [this nextId]. split.
  - split; [done|]. etrans; [exact Hn|]. apply cloneDeep_mono.
  - split; [done|]. split; [done|]. split; [done|].
    destruct (cloneDeep_deepCopy (lookupField k fields) (nextId s)) as [Hc Hi].
    split; [exact Hc|]. eapply Forall_impl; [exact Hi|]. intros i. simpl. lia.
Qed.

(** C7. For a result set of documents, [eagerLoad] returns a mapping
    that has an entry under the fromKey value of every row; each entry
    is one instance of the related model (in its lodash wrapper), built
    from the last row with that key: its attributes are the embedded
    toKey field of that row (the very object), it is marked as existing,
    and its original is a deep copy of its attributes: it holds what
    they hold, in objects of its own. *)
Theorem eagerLoad_spec values scopeMethod results s :
  Forall isDoc results →
  Forall (allocatedBelow (nextId s)) results →
  ∃ m s',
    eagerLoad values scopeMethod results s = Return m s'
    ∧ (∀ row, row ∈ results → is_Some (m !! keyOf (fromKey (this s)) row))
    ∧ (∀ k w, m !! k = Some w →
         ∃ before row after,
           results = before ++ row :: after
           ∧ keyOf (fromKey (this s)) row = k
           ∧ Forall (λ row', keyOf (fromKey (this s)) row' ≠ k) after
           ∧ constructor_ (value_ w) = related (this s)
           ∧ attributes (value_ w) = getProp row (toKey (this s))
           ∧ exists_ (value_ w) = true
           ∧ content (original (value_ w)) = content (attributes (value_ w))
           ∧ (∀ i, i ∈ ids (original (value_ w)) →
                   i ∉ ids (attributes (value_ w)))).
Proof.
  intros Hdocs Hbelow.
  destruct (applyScope_spec scopeMethod s) as (s1 & Hs1 & _ & Hrel & Hfrom & Hto & Hnext).
  destruct (mapValues_spec
              (λ value, let* embedded := liftE (propOf value (toKey (this s))) in
                        loadEmbedded embedded)
              (λ s', related (this s') = related (this s) ∧ nextId s ≤ nextId s')
              isDoc
              (loadedFrom (related (this s)) (toKey (this s)) (nextId s))
              (keyBy (fromKey (this s)) results) s1)
    as (m & s' & Hm & _ & Hentries & Hdom).
  { intros v s0 Hv [HC Hn]. by apply loadEmbedded_row. }
  { intros k v Hkv. apply keyBy_last in Hkv as (before & after & -> & _ & _).
    rewrite Forall_app, Forall_cons in Hdocs. by destruct Hdocs as (_ & ? & _). }
  { split; [done|lia]. }
  exists m, s'. split; [|split].
  - unfold eagerLoad. unfold bind at 1. rewrite Hs1.
    unfold bind at 1. unfold getThis. rewrite Hfrom, Hto. exact Hm.
  - intros row Hrow. apply Hdom. by apply keyBy_row.
  - intros k w Hw. destruct (Hentries k w Hw) as (row & Hrow & HC & Hattr & Hex & Hcopy).
    destruct (keyBy_last _ _ _ _ Hrow) as (before & after & Hres & Hk & Hafter).
    exists before, row, after. repeat (split; [done|]).
    split; [by destruct Hcopy|].
    eapply deepCopy_disjoint; [exact Hcopy|].
    rewrite Hattr. apply getProp_allocated.
    rewrite Hres, Forall_app, Forall_cons in Hbelow.
    by destruct Hbelow as (_ & ? & _).
Qed.

Lemma elem_of_prototypeChain C D : C ∈ prototypeChain D ↔ extendsOrIs C D.
Proof.
  split.
  - induction D as [i n p|D IH i n p]; simpl; rewrite elem_of_cons.
    + intros [->|Hin]; [constructor|]. by apply elem_of_nil in Hin.
    + intros [->|Hin]; [constructor|]. constructor 2. by apply IH.
  - induction 1 as [|D i n p _ IH].
    + destruct C; apply list_elem_of_here.
    + simpl. by apply list_elem_of_further.
Qed.

Lemma instanceof_spec m C : instanceof m C = true ↔ instanceOfModel m C.
Proof.
  unfold instanceof, instanceOfModel. rewrite bool_decide_eq_true.
  apply elem_of_prototypeChain.
Qed.

Lemma instanceof_refuses m C : ¬ instanceOfModel m C → instanceof m C = false.
Proof.
  intros Hn. destruct (instanceof m C) eqn:Hi; [|done].
  by apply instanceof_spec in Hi.
Qed.

(** C6. [save] fails with the relation-mismatch error when the instance
    is not an instance of the related model (neither made by that class
    nor by a class that extends it; a class of the same name does not
    count), and with the unsaved-target error when it is but the parent
    is not persisted, in both cases without having changed anything. On
    a persisted parent it gives the related instance a generated
    identifier under fromKey when that field has no (or a falsy) value,
    writes the serialized related instance into the toKey field of the
    parent, persists the parent and returns the related instance. *)
Theorem save_spec (toJSON : Instance → value) (uuid_v4 : nat → string)
    relatedInstance s :
  (¬ instanceOfModel relatedInstance (related (this s)) →
     save toJSON uuid_v4 relatedInstance s
     = Throw (RelationMisMatch "save accepts an instance of related model") s)
  ∧ (instanceOfModel relatedInstance (related (this s)) →
     exists_ (parent (this s)) = false →
     save toJSON uuid_v4 relatedInstance s
     = Throw (UnSavedTarget "save" (name (constructor_ (parent (this s))))
                (name (related (this s)))) s)
  ∧ (instanceOfModel relatedInstance (related (this s)) →
     exists_ (parent (this s)) = true →
     isDoc (attributes (parent (this s))) →
     ∀ key, readField relatedInstance (fromKey (this s)) = inr key →
     ∃ saved s',
       save toJSON uuid_v4 relatedInstance s = Return saved s'
       ∧ (truthyV key = false →
            writeField (fromKey (this s)) (VPrim (PStr (uuid_v4 (uuids s))))
                       relatedInstance = inr saved
            ∧ readField saved (fromKey (this s))
              = inr (VPrim (PStr (uuid_v4 (uuids s)))))
       ∧ (truthyV key = true → saved = relatedInstance)
       ∧ readField (parent (this s')) (toKey (this s)) = inr (toJSON saved)
       ∧ exists_ (parent (this s')) = true
       ∧ last (effects s') = Some (Persisted (parent (this s')))).
Proof.
  split; [|split].
  - intros Hi%instanceof_refuses. unfold save, bind, getThis. by rewrite Hi.
  - intros Hi%instanceof_spec Hex. unfold save, bind, getThis, isNew.
    by rewrite Hi, Hex.
  - intros Hi%instanceof_spec Hex (pid & pfields & Hp) key Hkey.
    assert (∃ rid rfields, attributes relatedInstance = VObj rid rfields
                           ∧ key = lookupField (fromKey (this s)) rfields)
      as (rid & rfields & Hr & ->).
    { unfold readField in Hkey. destruct (attributes relatedInstance); try done.
      injection Hkey as <-. by do 2 eexists. }
    unfold save, getThis, isNew. unfold bind at 1. rewrite Hi, Hex. cbn [negb].
    unfold readField at 1. rewrite Hp. unfold liftE at 1, bind at 1, ret at 1.
    destruct (truthyV (lookupField (fromKey (this s)) pfields)) eqn:Hown;
      cbn [negb];
      destruct (truthyV (lookupField (fromKey (this s)) rfields)) eqn:Htr.
    all: unfold bind, ret, emit, modify, readField, writeField, liftE, uuid,
           parentSave, getThis, setParent, cloneDeepM, setAttributes;
         rewrite ?Hr, ?Hp; cbn -[cloneDeep last]; rewrite ?Htr; cbn -[cloneDeep last];
         rewrite ?Hp, ?Hr; cbn -[cloneDeep last].
    all: do 2 eexists; split; [reflexivity|]; cbn -[cloneDeep last].
    all: repeat split; try (intros; discriminate); intros;
         rewrite ?lookup_assignField, ?last_snoc; done.
Qed.

End Facts.

Lemma eagerLoad_spec_witness :
  Forall isDoc userRows
  ∧ Forall (allocatedBelow (nextId relationState)) userRows
  ∧ ∃ m s',
      eagerLoad [] None userRows relationState = Return m s'
      ∧ is_Some (m !! "7") ∧ is_Some (m !! "8").
Proof.
  assert (Forall isDoc userRows) as Hdocs.
  { repeat constructor; by do 2 eexists. }
  assert (Forall (allocatedBelow (nextId relationState)) userRows) as Hbelow.
  { unfold allocatedBelow. repeat constructor; simpl; lia. }
  split; [exact Hdocs|]. split; [exact Hbelow|].
  destruct (eagerLoad_spec [] None userRows relationState Hdocs Hbelow)
    as (m & s' & Hrun & Hrows & _).
  exists m, s'. split; [exact Hrun|]. split.
  - apply (Hrows (VObj 0 [("_id", VPrim (PInt 7));
                          ("profile", VObj 1 [("bio", VPrim (PStr "x"))])])).
    by left.
  - apply (Hrows (VObj 2 [("_id", VPrim (PInt 8))])). right. by left.
Defined.

Lemma save_spec_witness :
  (¬ instanceOfModel (profileOf Admin) Profile
   ∧ save attributes sampleUuid (profileOf Admin) relationState
     = Throw (RelationMisMatch "save accepts an instance of related model")
         relationState)
  ∧ (¬ instanceOfModel (profileOf OtherProfile) Profile
     ∧ save attributes sampleUuid (profileOf OtherProfile) relationState
       = Throw (RelationMisMatch "save accepts an instance of related model")
           relationState)
  ∧ (instanceOfModel (profileOf PublicProfile) Profile
     ∧ ∃ saved s',
         save attributes sampleUuid (profileOf PublicProfile) relationState
         = Return saved s'
         ∧ constructor_ saved = PublicProfile
         ∧ readField (parent (EmbedsOne.this s')) "profile" = inr (attributes saved))
  ∧ (instanceOfModel newProfile Profile
     ∧ exists_ (parent (EmbedsOne.this unsavedRelationState)) = false
     ∧ save attributes sampleUuid newProfile unsavedRelationState
       = Throw (UnSavedTarget "save" "User" "Profile") unsavedRelationState)
  ∧ (instanceOfModel newProfile Profile
     ∧ exists_ (parent (EmbedsOne.this relationState)) = true
     ∧ readField newProfile "_id" = inr undefined
     ∧ ∃ saved s',
         save attributes sampleUuid newProfile relationState = Return saved s'
         ∧ readField saved "_id" = inr (VPrim (PStr "uuid-0"))
         ∧ readField (parent (EmbedsOne.this s')) "profile" = inr (attributes saved)
         ∧ last (effects s') = Some (Persisted (parent (EmbedsOne.this s')))).
Proof.
  assert (¬ instanceOfModel (profileOf Admin) Profile) as Hadmin
    by (intros H; inversion H).
  assert (¬ instanceOfModel (profileOf OtherProfile) Profile) as Hother
    by (intros H; inversion H).
  assert (instanceOfModel (profileOf PublicProfile) Profile) as Hsub
    by (constructor 2; constructor).
  assert (instanceOfModel newProfile Profile) as Hown by constructor.
  assert (isDoc (attributes (parent (EmbedsOne.this relationState)))) as Hdoc
    by (by do 2 eexists).
  split; [split; [exact Hadmin|]|].
  { exact (proj1 (save_spec attributes sampleUuid (profileOf Admin) relationState)
             Hadmin). }
  split; [split; [exact Hother|]|].
  { exact (proj1 (save_spec attributes sampleUuid (profileOf OtherProfile)
                    relationState) Hother). }
  split; [split; [exact Hsub|]|].
  { destruct (save_spec attributes sampleUuid (profileOf PublicProfile)
                relationState) as (_ & _ & Hsave).
    destruct (Hsave Hsub eq_refl Hdoc undefined eq_refl)
      as (saved & s' & Hrun & Hfalsy & _ & Hparent & _).
    exists saved, s'. split; [exact Hrun|]. split; [|exact Hparent].
    destruct (Hfalsy eq_refl) as [Hw _]. by injection Hw as <-. }
  split; [split; [exact Hown|split; [reflexivity|]]|].
  { exact (proj1 (proj2 (save_spec attributes sampleUuid newProfile
                           unsavedRelationState)) Hown eq_refl). }
  split; [exact Hown|]. split; [reflexivity|]. split; [reflexivity|].
  destruct (save_spec attributes sampleUuid newProfile relationState)
    as (_ & _ & Hsave).
  destruct (Hsave Hown eq_refl Hdoc undefined eq_refl)
    as (saved & s' & Hrun & Hfalsy & _ & Hparent & _ & Hlast).
  exists saved, s'. split; [exact Hrun|].
  split; [exact (proj2 (Hfalsy eq_refl))|]. split; [exact Hparent|exact Hlast].
Defined.

End EmbedsOneFacts.

(** * Further properties *)

(** ** Sequential use of the pool *)

Module PoolOpsFacts.

Import Database PoolSpec PoolOps Samples.
Import PoolFacts.

Lemma settled_initial : settled initial.
Proof.
  split; simpl; try done.
  - intros h Hh. lia.
  - intros h Hh. by apply elem_of_nil in Hh.
Qed.

Lemma settled_live s h : settled s → (live s h = true ↔ pooled s h).
Proof.
  intros Hs. unfold live. rewrite (settled_inflight s Hs).
  rewrite !andb_true_iff, !negb_true_iff, !bool_decide_eq_true, !bool_decide_eq_false.
  split.
  - intros [[Hlt _] Hnc]. destruct (settled_rest s Hs h Hlt); [done|done].
  - intros [key Hk]. destruct (settled_pooled s Hs key h Hk) as [Hlt Hnc].
    split; [split; [done|]|done]. simpl. apply not_elem_of_nil.
Qed.

Lemma close_cases Config name s s' :
  close Config name s = inr s' →
  (∃ key h, connectionPools s !! key = Some h ∧ s' = closedOne key h s)
  ∨ s' = closedAll s.
Proof.
  unfold close.
  destruct (truthy (ofOpt name)); [|intros [= Hs']; subst s'; by right].
  destruct (_resolveConnectionKey Config (default "" name)) as [e|key]; [done|].
  simpl. destruct (negb (String.eqb key "")); [|intros [= Hs']; subst s'; by right].
  destruct (connectionPools s !! key) as [h|] eqn:Hk; simpl.
  - intros [= Hs']; subst s'. left. by exists key, h.
  - intros [= Hs']; subst s'. by right.
Qed.

Lemma settled_closedOne key h s :
  settled s → connectionPools s !! key = Some h → settled (closedOne key h s).
Proof.
  intros Hs Hk. destruct (settled_pooled s Hs key h Hk) as [Hlt Hnc].
  split; simpl.
  - apply Hs.
  - intros k' h' Hk'. apply lookup_delete_Some in Hk' as [Hne Hk'].
    destruct (settled_pooled s Hs k' h' Hk') as [Hlt' Hnc']. split; [done|].
    rewrite elem_of_app, list_elem_of_singleton. intros [?| ->]; [done|].
    apply Hne. by apply (settled_names s Hs key k' h).
  - intros h' Hlt'. rewrite elem_of_app, list_elem_of_singleton.
    destruct (decide (h' = h)) as [->|Hne]; [by left; right|].
    destruct (settled_rest s Hs h' Hlt') as [?|[k' Hk']]; [by left; left|].
    right. exists k'. apply lookup_delete_Some. split; [|done].
    intros <-. congruence.
  - intros h' [Hin| ->%list_elem_of_singleton]%elem_of_app; [|done].
    by apply (settled_closed s Hs).
  - intros k1 k2 h' [_ H1]%lookup_delete_Some [_ H2]%lookup_delete_Some.
    by apply (settled_names s Hs k1 k2 h').
Qed.

Lemma elem_of_pool_handles (m : gmap string handle) h :
  h ∈ (map_to_list m).*2 ↔ ∃ key, m !! key = Some h.
Proof.
  rewrite list_elem_of_fmap. split.
  - intros ([k h'] & -> & Hin). exists k. by apply elem_of_map_to_list.
  - intros [k Hk]. exists (k, h). split; [done|]. by apply elem_of_map_to_list.
Qed.

Lemma settled_closedAll s : settled s → settled (closedAll s).
Proof.
  intros Hs. split; simpl.
  - apply Hs.
  - intros k h Hk. by rewrite lookup_empty in Hk.
  - intros h Hlt. left. rewrite elem_of_app, elem_of_pool_handles.
    destruct (settled_rest s Hs h Hlt) as [?|?]; [by left|by right].
  - intros h [Hin|[k Hk]%elem_of_pool_handles]%elem_of_app.
    + by apply (settled_closed s Hs).
    + by destruct (settled_pooled s Hs k h Hk).
  - intros k1 k2 h Hk. by rewrite lookup_empty in Hk.
Qed.

Lemma await_miss Config env name key c s :
  _resolveConnectionKey Config name = inr key →
  connectionPools s !! key = None →
  Config !! ("database." +:+ key) = Some (CfgDb c) →
  inflight s = [] →
  await_connection Config env name s =
    Return (length (connects s))
      {| connectionPools := <[key := length (connects s)]> (connectionPools s);
         connects := connects s ++ [connectionString env (connection_ c)];
         inflight := [];
         closed := closed s |}.
Proof.
  intros Hk Hp Hc Hi. unfold await_connection.
  rewrite (connection_miss _ _ _ key c) by done.
  unfold connect_done. cbn [inflight connectionPools connects closed].
  rewrite Hi. cbn. settle_decide. cbn. unfold handle.
  by rewrite lookup_insert_eq.
Qed.

Lemma settled_opened key uri s :
  settled s → connectionPools s !! key = None →
  settled {| connectionPools := <[key := length (connects s)]> (connectionPools s);
             connects := connects s ++ [uri];
             inflight := [];
             closed := closed s |}.
Proof.
  intros Hs Hp. split; simpl.
  - done.
  - intros k h. rewrite length_app. simpl.
    destruct (decide (key = k)) as [<-|Hne].
    + rewrite lookup_insert_eq. intros [= <-]. split; [lia|].
      intros Hin. apply (settled_closed s Hs) in Hin. lia.
    + rewrite lookup_insert_ne by done. intros Hk.
      destruct (settled_pooled s Hs k h Hk). split; [lia|done].
  - intros h. rewrite length_app. simpl. intros Hlt.
    destruct (decide (h = length (connects s))) as [->|Hne].
    + right. exists key. apply lookup_insert_eq.
    + destruct (settled_rest s Hs h) as [?|[k Hk]]; [lia|by left|].
      right. exists k. simpl. rewrite lookup_insert_ne; [done|]. intros <-. congruence.
  - intros h Hin. rewrite length_app. apply (settled_closed s Hs) in Hin. lia.
  - intros k1 k2 h.
    destruct (decide (key = k1)) as [<-|Hn1]; destruct (decide (key = k2)) as [<-|Hn2];
      rewrite ?lookup_insert_eq, ?lookup_insert_ne by done; try done.
    + intros [= <-] Hk2. destruct (settled_pooled s Hs k2 _ Hk2). lia.
    + intros Hk1 [= <-]. destruct (settled_pooled s Hs k1 _ Hk1). lia.
    + by apply (settled_names s Hs).
Qed.

Lemma settled_await Config env name s :
  settled s → settled (stateOf (await_connection Config env name s)).
Proof.
  intros Hs.
  destruct (_resolveConnectionKey Config name) as [e|key] eqn:Hk.
  { unfold await_connection, connection. by rewrite Hk. }
  destruct (connectionPools s !! key) as [h|] eqn:Hp.
  { unfold await_connection. by rewrite (connection_hit _ _ _ key h). }
  destruct (Config !! ("database." +:+ key)) as [[str|c]|] eqn:Hc.
  - unfold await_connection, connection. rewrite Hk, Hp, Hc.
    by destruct str.
  - rewrite (await_miss _ _ _ key c) by (done || apply Hs). simpl.
    by apply settled_opened.
  - unfold await_connection, connection. by rewrite Hk, Hp, Hc.
Qed.

Lemma settled_perform Config env o s : settled s → settled (perform Config env o s).
Proof.
  intros Hs. destruct o as [name|name]; simpl.
  - by apply settled_await.
  - destruct (close Config name s) as [e|s'] eqn:Hc; [done|].
    apply close_cases in Hc as [(key & h & Hk & ->)| ->].
    + by apply settled_closedOne.
    + by apply settled_closedAll.
Qed.

Lemma settled_performAll Config env ops s :
  settled s → settled (performAll Config env ops s).
Proof.
  revert s. induction ops as [|o ops IH]; intros s Hs; [done|].
  simpl. apply IH. by apply settled_perform.
Qed.

(** X1. Whatever sequence of awaited [connection] calls and [close]
    calls is made from the empty pool, in the state reached no connect
    is in flight, the live handles are exactly the pooled ones, and no
    handle sits in the pool under two names: at most one live handle per
    name. *)
Theorem sequential_use_one_live_handle_per_name Config env ops :
  let s := performAll Config env ops initial in
  inflight s = []
  ∧ (∀ h, live s h = true ↔ pooled s h)
  ∧ (∀ k1 k2 h,
       connectionPools s !! k1 = Some h → connectionPools s !! k2 = Some h →
       k1 = k2).
Proof.
  pose proof (settled_performAll Config env ops initial settled_initial) as Hs.
  split; [apply Hs|]. split.
  - intros h. by apply settled_live.
  - apply Hs.
Qed.

(** X2. Opening a connection for a name that is not pooled and then
    closing that name gives back the pool as it was; the handle that was
    opened is the one that is closed. *)
Theorem open_then_close_restores_pool Config env name key c s :
  name ≠ "" →
  _resolveConnectionKey Config name = inr key →
  connectionPools s !! key = None →
  Config !! ("database." +:+ key) = Some (CfgDb c) →
  inflight s = [] →
  performAll Config env [Connect name; Close (Some name)] s =
    {| connectionPools := connectionPools s;
       connects := connects s ++ [connectionString env (connection_ c)];
       inflight := [];
       closed := closed s ++ [length (connects s)] |}.
Proof.
  intros Hn Hk Hp Hc Hi. simpl.
  rewrite (await_miss _ _ _ key c) by done. simpl.
  rewrite (close_present_key _ _ key (length (connects s)));
    [|done|done|apply lookup_insert_eq].
  simpl. by rewrite delete_insert_id.
Qed.

Lemma open_then_close_restores_pool_witness :
  "default" ≠ ""
  ∧ _resolveConnectionKey sampleConfig "default" = inr "mongo"
  ∧ connectionPools poolA !! "mongo" = None
  ∧ sampleConfig !! ("database." +:+ "mongo")
    = Some (CfgDb {| connection_ := localApp; prefix := PUndef |})
  ∧ inflight poolA = []
  ∧ connectionPools
      (performAll sampleConfig sampleEnv [Connect "default"; Close (Some "default")]
         poolA)
    = {[ "a" := 0%nat ]}.
Proof.
  split; [done|]. split; [reflexivity|]. split; [reflexivity|].
  split; [reflexivity|]. split; [reflexivity|].
  rewrite (open_then_close_restores_pool sampleConfig sampleEnv "default" "mongo"
             {| connection_ := localApp; prefix := PUndef |} poolA);
    [reflexivity|done|reflexivity..].
Defined.

Lemma liveHandles_none s :
  (∀ h, live s h = false) → liveHandles s = [].
Proof.
  intros Hall. unfold liveHandles.
  induction (seq 0 (length (connects s))) as [|h l IH]; [done|].
  rewrite filter_cons_False; [done|]. by rewrite Hall.
Qed.

Lemma closedAll_nothing_live s : settled s → liveHandles (closedAll s) = [].
Proof.
  intros Hs. apply liveHandles_none. intros h.
  destruct (live (closedAll s) h) eqn:Hl; [|done].
  apply (settled_live _ _ (settled_closedAll s Hs)) in Hl as [key Hk].
  simpl in Hk. by rewrite lookup_empty in Hk.
Qed.

(** X3. After any sequence of awaited calls, [close] without a name, and
    likewise [close] with the empty string, empties the pool and leaves
    no handle live. *)
Theorem close_without_name_leaves_nothing_live Config env ops :
  (let s := performAll Config env (ops ++ [Close None]) initial in
   connectionPools s = ∅ ∧ liveHandles s = [])
  ∧ (let s := performAll Config env (ops ++ [Close (Some "")]) initial in
     connectionPools s = ∅ ∧ liveHandles s = []).
Proof.
  pose proof (settled_performAll Config env ops initial settled_initial) as Hs.
  unfold performAll. rewrite !foldl_app. simpl.
  fold (performAll Config env ops initial).
  split; (split; [done|]); by apply (closedAll_nothing_live _ Hs).
Qed.

(** X4. Under sequential use, the handle an awaited [connection] call
    returns is live and is the one pooled under the resolved name: a
    handle that was closed is never handed out again. *)
Theorem awaited_connection_returns_live_handle Config env ops name h s' :
  await_connection Config env name (performAll Config env ops initial)
    = Return h s' →
  live s' h = true
  ∧ (h ∉ closed s')
  ∧ ∃ key, _resolveConnectionKey Config name = inr key
           ∧ connectionPools s' !! key = Some h.
Proof.
  pose proof (settled_performAll Config env ops initial settled_initial) as Hs.
  pose proof (settled_await Config env name _ Hs) as Hs'.
  set (s := performAll Config env ops initial) in *. intros Hret.
  rewrite Hret in Hs'. simpl in Hs'.
  assert (∃ key, _resolveConnectionKey Config name = inr key
                 ∧ connectionPools s' !! key = Some h) as (key & Hk & Hp).
  { destruct (_resolveConnectionKey Config name) as [e|key] eqn:Hk.
    { unfold await_connection, connection in Hret. by rewrite Hk in Hret. }
    exists key. split; [done|].
    destruct (connectionPools s !! key) as [h0|] eqn:Hp.
    { unfold await_connection in Hret.
      rewrite (connection_hit _ _ _ key h0) in Hret by done.
      by injection Hret as <- <-. }
    destruct (Config !! ("database." +:+ key)) as [[str|c]|] eqn:Hc.
    - unfold await_connection, connection in Hret. rewrite Hk, Hp, Hc in Hret.
      by destruct str.
    - rewrite (await_miss _ _ _ key c) in Hret by (done || apply Hs).
      injection Hret as <- <-. simpl. apply lookup_insert_eq.
    - unfold await_connection, connection in Hret. by rewrite Hk, Hp, Hc in Hret. }
  split; [apply (settled_live _ _ Hs'); by exists key|].
  split; [by destruct (settled_pooled _ Hs' key h Hp)|by exists key].
Qed.

Lemma awaited_connection_returns_live_handle_witness :
  ∃ s',
    await_connection sampleConfig sampleEnv "default"
      (performAll sampleConfig sampleEnv
         [Connect "default"; Close (Some "default")] initial)
    = Return 1%nat s'
    ∧ live s' 1%nat = true ∧ (1%nat ∉ closed s').
Proof.
  eexists. split; [reflexivity|].
  destruct (awaited_connection_returns_live_handle sampleConfig sampleEnv
              [Connect "default"; Close (Some "default")] "default" 1%nat _ eq_refl)
    as (Hl & Hc & _).
  split; [exact Hl|exact Hc].
Defined.

End PoolOpsFacts.

(** ** Pager, with any driver *)

Module PagerMoreFacts.

Import Pager PagerSpec Samples MoreSamples.
Import PagerFacts.

Section Facts.

Context {Row : Type}.
Implicit Types (s : state Row) (driver : Driver Row) (rows : list Row)
  (pages : list (list Row)).

Lemma perPageOr20_nonzero perPage : perPageOr20 perPage ≠ 0%Z.
Proof.
  destruct perPage as [p|]; simpl; [|done].
  destruct (p =? 0)%Z eqn:Hp; lia.
Qed.

Lemma perPageOr20_again perPage :
  perPageOr20 (Some (perPageOr20 perPage)) = perPageOr20 perPage.
Proof.
  pose proof (perPageOr20_nonzero perPage) as Hn. simpl.
  destruct (perPageOr20 perPage =? 0)%Z eqn:Hp; [lia|done].
Qed.

(** One round of [chunk] at a valid page. *)
Lemma chunk_step driver fuel limit (p : Z) s :
  (0 < p)%Z →
  chunk driver (S fuel) limit (Some p) s =
    let q := pageQuery (this s) p (perPageOr20 limit) in
    let rows := execFind driver q in
    if bool_decide (rows = []) then
      Some (Return tt {| this := q; trace := trace s ++ [EvFind q rows] |})
    else
      chunk driver fuel limit (Some (p + 1)%Z)
        {| this := q; trace := trace s ++ [EvFind q rows; EvCallback rows] |}.
Proof.
  intros Hp. simpl chunk.
  assert (truthyN (Some p) = true) as ->.
  { unfold truthyN. simpl. lia. }
  simpl default. unfold bind at 1.
  rewrite forPage_positive by done.
  unfold yieldFind, bind, emit, modify, ret. cbn [this trace].
  destruct (execFind driver (pageQuery (this s) p (perPageOr20 limit)))
    as [|r rows] eqn:Hrows; cbn -[chunk].
  - done.
  - rewrite bool_decide_true by lia. by rewrite <- app_assoc.
Qed.

Lemma chunk_from_none driver fuel limit s :
  chunk driver fuel limit None s = chunk driver fuel limit (Some 1%Z) s.
Proof. by destruct fuel. Qed.

Lemma chunk_from_page driver limit fuel :
  ∀ (i : nat) s o,
    chunk driver fuel limit (Some (Z.of_nat i + 1)%Z) s = Some o →
    ∃ pages,
      o = Return tt
            {| this := pageQuery (this s) (Z.of_nat (i + length pages) + 1)
                         (perPageOr20 limit);
               trace := trace s ++
                 chunkTrace (this s) (perPageOr20 limit) (Z.of_nat i + 1) pages |}
      ∧ (∀ j pg, pages !! j = Some pg →
           pg ≠ []
           ∧ pg = execFind driver
                    (pageQuery (this s) (Z.of_nat (i + j) + 1) (perPageOr20 limit)))
      ∧ execFind driver
          (pageQuery (this s) (Z.of_nat (i + length pages) + 1) (perPageOr20 limit))
        = []
      ∧ (length pages < fuel)%nat.
Proof.
  induction fuel as [|fuel IH]; intros i s o; [done|].
  rewrite chunk_step by lia. cbv zeta.
  destruct (execFind driver
              (pageQuery (this s) (Z.of_nat i + 1) (perPageOr20 limit)))
    as [|r rows] eqn:Hrows.
  - rewrite bool_decide_true by done. intros [= <-]. exists [].
    simpl. rewrite Nat.add_0_r. split; [done|]. split; [done|].
    split; [done|lia].
  - rewrite bool_decide_false by done.
    replace (Z.of_nat i + 1 + 1)%Z with (Z.of_nat (S i) + 1)%Z by lia.
    intros Hrest. apply IH in Hrest as (pages & -> & Hpages & Hlast & Hlen).
    cbn [this trace] in *. rewrite pageQuery_again in *.
    exists ((r :: rows) :: pages). simpl length.
    replace (i + S (length pages))%nat with (S i + length pages)%nat by lia.
    split; [|split; [|split]].
    + rewrite chunkTrace_base. do 2 f_equal. rewrite <- app_assoc. simpl.
      do 3 f_equal. f_equal. lia.
    + intros [|j] pg; simpl.
      * intros [= <-]. rewrite Nat.add_0_r. by rewrite Hrows.
      * intros Hj. destruct (Hpages j pg Hj) as [Hne Hpg]. split; [done|].
        rewrite Hpg, pageQuery_again. do 2 f_equal. lia.
    + done.
    + lia.
Qed.

(** X5. With any driver, whenever [chunk] returns it has not failed, the
    pages it fetched are pages 1, 2, ... in order, the callback was
    called once after each fetch that brought rows and with exactly
    those rows, and the last fetch is the first one that brought none. *)
Theorem chunk_returns_after_first_empty_page driver fuel limit s o :
  chunk driver fuel limit None s = Some o →
  ∃ pages,
    o = Return tt
          {| this := pageQuery (this s) (Z.of_nat (length pages) + 1)
                       (perPageOr20 limit);
             trace := trace s ++ chunkTrace (this s) (perPageOr20 limit) 1 pages |}
    ∧ (∀ j pg, pages !! j = Some pg →
         pg ≠ []
         ∧ pg = execFind driver
                  (pageQuery (this s) (Z.of_nat j + 1) (perPageOr20 limit)))
    ∧ execFind driver
        (pageQuery (this s) (Z.of_nat (length pages) + 1) (perPageOr20 limit))
      = []
    ∧ (length pages < fuel)%nat.
Proof.
  rewrite chunk_from_none. intros Hrun.
  by apply (chunk_from_page driver limit fuel 0 s o) in Hrun.
Qed.

Lemma chunk_endless driver limit fuel :
  (∀ q, execFind driver q ≠ []) →
  ∀ (p : Z) s, (0 < p)%Z → chunk driver fuel limit (Some p) s = None.
Proof.
  intros Hrows. induction fuel as [|fuel IH]; intros p s Hp; [done|].
  rewrite chunk_step by done. cbv zeta.
  rewrite bool_decide_false by apply Hrows. apply IH. lia.
Qed.

(** X6. [chunk] has no cutoff of its own: with a driver that brings
    rows for every page, no depth of recursion is enough for it to
    return. *)
Theorem chunk_never_returns_while_rows_come driver limit s :
  (∀ q, execFind driver q ≠ []) →
  ∀ fuel, chunk driver fuel limit None s = None.
Proof.
  intros Hrows fuel. rewrite chunk_from_none. by apply chunk_endless.
Qed.

(** *** [paginate] and [forPage] *)

Lemma paginate_nonzero_count driver page perPage countByQuery s n :
  (0 < toSafeInteger page)%Z →
  execCount driver (countQuery countByQuery (this s)) = Some n →
  n ≠ 0%Z →
  paginate driver page perPage countByQuery s =
    let q := pageQuery (this s) (toSafeInteger page)
               (perPageOr20 (Some (toSafeInteger perPage))) in
    Return (setData (execFind driver q)
              (makePaginateMeta n (toSafeInteger page)
                 (perPageOr20 (Some (toSafeInteger perPage)))))
           {| this := q;
              trace := trace s ++
                [EvCount (countQuery countByQuery (this s)) (Some n);
                 EvFind q (execFind driver q)] |}.
Proof.
  intros Hp Hc Hn. unfold paginate, bind. simpl.
  assert ((0 <? toSafeInteger page)%Z = true) as -> by lia. simpl.
  rewrite exclude_order. fold (countQuery countByQuery (this s)).
  rewrite perPage_default, Hc.
  assert (negb (truthyN (Some n)) || bool_decide (parseInt (Some n) = Some 0%Z)
          = false) as ->.
  { unfold truthyN, parseInt. simpl.
    rewrite bool_decide_false by congruence.
    destruct (n =? 0)%Z eqn:?; [lia|done]. }
  rewrite forPage_positive by done. cbn [this trace].
  rewrite perPageOr20_again. simpl. by rewrite <- app_assoc.
Qed.

(** X7. When the count is not zero, [paginate] issues exactly two
    queries, the count query first and then the query for the page; the
    data of the result are the rows that query brought, the total is the
    count, and the query object is left restricted to that page. *)
Theorem paginate_counts_then_fetches driver page perPage countByQuery s n :
  (0 < toSafeInteger page)%Z →
  execCount driver (countQuery countByQuery (this s)) = Some n →
  n ≠ 0%Z →
  ∃ r s',
    paginate driver page perPage countByQuery s = Return r s'
    ∧ this s' = find (limit (perPageOr20 (Some (toSafeInteger perPage)))
                        (skip ((toSafeInteger page - 1)
                               * perPageOr20 (Some (toSafeInteger perPage)))%Z
                              (this s)))
    ∧ data r = execFind driver (this s')
    ∧ total r = n
    ∧ trace s' = trace s ++
        [EvCount (countQuery countByQuery (this s)) (Some n);
         EvFind (this s') (data r)].
Proof.
  intros Hp Hc Hn. rewrite (paginate_nonzero_count _ _ _ _ _ n) by done.
  cbv zeta. do 2 eexists. split; [reflexivity|]. by repeat split.
Qed.

(** X8. A page that does not parse to a positive integer (an omitted
    page among them) makes [paginate] fail before any query is issued:
    the query object and the trace are as they were. *)
Theorem paginate_invalid_page_issues_nothing driver page perPage countByQuery s :
  (toSafeInteger page ≤ 0)%Z →
  ∃ msg,
    paginate driver page perPage countByQuery s
    = Throw (InvalidArgumentException msg) s.
Proof.
  intros Hp. unfold paginate. unfold bind at 1. simpl liftE.
  assert ((0 <? toSafeInteger page)%Z = false) as -> by lia.
  by eexists.
Qed.

(** The first thing a [paginate] with a valid page does is to issue the
    count query; the statements of the query object are never touched. *)
Lemma paginate_trace_head driver page perPage countByQuery s :
  (0 < toSafeInteger page)%Z →
  ∃ r rest,
    trace (stateOf (paginate driver page perPage countByQuery s))
    = trace s ++ EvCount (countQuery countByQuery (this s)) r :: rest
    ∧ _statements (this (stateOf (paginate driver page perPage countByQuery s)))
      = _statements (this s).
Proof.
  intros Hp.
  destruct (execCount driver (countQuery countByQuery (this s))) as [n|] eqn:Hc.
  - destruct (decide (n = 0%Z)) as [->|Hn].
    + rewrite paginate_parsed_zero_count; [|done|right; by rewrite Hc].
      simpl. by exists (execCount driver (countQuery countByQuery (this s))), [].
    + rewrite (paginate_nonzero_count _ _ _ _ _ n) by done. cbv zeta. simpl.
      by eexists _, [_].
  - rewrite paginate_parsed_zero_count; [|done|left; by rewrite Hc].
    simpl. by exists (execCount driver (countQuery countByQuery (this s))), [].
Qed.


(** X10. [paginate] mutates the query object: after a call with a
    non-zero count, a second [paginate] on the same object builds its
    count query from the restricted query, so that count query carries
    the skip and the limit of the page fetched before. *)
Theorem paginate_again_counts_restricted_query driver page perPage page' perPage' s n :
  (0 < toSafeInteger page)%Z →
  execCount driver (countQuery None (this s)) = Some n →
  n ≠ 0%Z →
  (0 < toSafeInteger page')%Z →
  let s1 := stateOf (paginate driver page perPage None s) in
  ∃ cq r rest,
    trace (stateOf (paginate driver page' perPage' None s1))
    = trace s1 ++ EvCount cq r :: rest
    ∧ op cq = "count"
    ∧ optSkip cq = Some ((toSafeInteger page - 1)
                         * perPageOr20 (Some (toSafeInteger perPage)))%Z
    ∧ optLimit cq = Some (perPageOr20 (Some (toSafeInteger perPage))).
Proof.
  intros Hp Hc Hn Hp' s1.
  destruct (paginate_trace_head driver page' perPage' None s1 Hp')
    as (r & rest & Htrace & _).
  exists (countQuery None (this s1)), r, rest. split; [exact Htrace|].
  unfold s1. rewrite (paginate_nonzero_count _ _ _ _ _ n) by done.
  by repeat split.
Qed.

(** X11. Restricting a query to a page twice does not add the offsets
    up: the second [forPage] replaces the skip and the limit of the
    first. *)
Theorem forPage_again_replaces_restriction (p1 p2 : Z) perPage1 perPage2 s :
  (0 < p1)%Z → (0 < p2)%Z →
  (exec forPage (Some p1) perPage1 in forPage (Some p2) perPage2) s
  = forPage (Some p2) perPage2 s.
Proof.
  intros H1 H2. unfold bind. rewrite !forPage_positive by done.
  cbn [this trace]. by rewrite pageQuery_again.
Qed.

End Facts.

Lemma paginate_counts_then_fetches_witness :
  (0 < toSafeInteger (Some 2%Z))%Z
  ∧ execCount (staticDriver (seq 0 23)) (countQuery None usersQuery) = Some 23%Z
  ∧ 23%Z ≠ 0%Z
  ∧ ∃ r s',
      paginate (staticDriver (seq 0 23)) (Some 2%Z) (Some 5%Z) None usersState
      = Return r s'
      ∧ data r = [5; 6; 7; 8; 9]%nat
      ∧ total r = 23%Z
      ∧ length (trace s') = 2%nat.
Proof.
  split; [done|]. split; [reflexivity|]. split; [done|].
  destruct (paginate_counts_then_fetches (staticDriver (seq 0 23)) (Some 2%Z)
              (Some 5%Z) None usersState 23%Z) as (r & s' & Hrun & Hq & Hd & Ht & Htr);
    [done|reflexivity|done|].
  exists r, s'. split; [exact Hrun|]. split.
  { rewrite Hd, Hq. reflexivity. }
  split; [exact Ht|]. rewrite Htr. reflexivity.
Defined.

Lemma paginate_invalid_page_issues_nothing_witness :
  (toSafeInteger None ≤ 0)%Z
  ∧ ∃ msg,
      paginate (staticDriver (seq 0 23)) None (Some 5%Z) None usersState
      = Throw (InvalidArgumentException msg) usersState.
Proof.
  split; [done|].
  apply (paginate_invalid_page_issues_nothing (staticDriver (seq 0 23)) None
           (Some 5%Z) None usersState).
  done.
Defined.


Lemma paginate_again_counts_restricted_query_witness :
  (0 < toSafeInteger (Some 2%Z))%Z
  ∧ execCount (staticDriver (seq 0 23)) (countQuery None usersQuery) = Some 23%Z
  ∧ ∃ cq r rest,
      trace (stateOf (paginate (staticDriver (seq 0 23)) (Some 1%Z) (Some 5%Z) None
                        (stateOf (paginate (staticDriver (seq 0 23)) (Some 2%Z)
                                    (Some 5%Z) None usersState))))
      = trace (stateOf (paginate (staticDriver (seq 0 23)) (Some 2%Z)
                          (Some 5%Z) None usersState))
          ++ EvCount cq r :: rest
      ∧ op cq = "count"
      ∧ optSkip cq = Some 5%Z
      ∧ optLimit cq = Some 5%Z.
Proof.
  split; [done|]. split; [reflexivity|].
  exact (paginate_again_counts_restricted_query (staticDriver (seq 0 23))
           (Some 2%Z) (Some 5%Z) (Some 1%Z) (Some 5%Z) usersState 23%Z
           ltac:(done) eq_refl ltac:(done) ltac:(done)).
Defined.

Lemma forPage_again_replaces_restriction_witness :
  (0 < 4)%Z ∧ (0 < 2)%Z
  ∧ optSkip (Pager.this (stateOf
       ((exec forPage (Some 4%Z) (Some 10%Z) in forPage (Some 2%Z) (Some 10%Z))
          usersState))) = Some 10%Z.
Proof.
  split; [lia|]. split; [lia|].
  rewrite (forPage_again_replaces_restriction 4 2 (Some 10%Z) (Some 10%Z) usersState)
    by lia.
  reflexivity.
Defined.

Lemma chunk_returns_after_first_empty_page_witness :
  ∃ o,
    chunk (staticDriver (seq 0 7)) 10 (Some 3%Z) None usersState = Some o
    ∧ ∃ pages,
        o = Return tt
              {| this := pageQuery usersQuery (Z.of_nat (length pages) + 1) 3;
                 trace := chunkTrace usersQuery 3 1 pages |}
        ∧ (∀ j pg, pages !! j = Some pg →
             pg ≠ []
             ∧ pg = execFind (staticDriver (seq 0 7))
                      (pageQuery usersQuery (Z.of_nat j + 1) 3))
        ∧ execFind (staticDriver (seq 0 7))
            (pageQuery usersQuery (Z.of_nat (length pages) + 1) 3) = []
        ∧ (length pages < 10)%nat.
Proof.
  assert (∃ o, chunk (staticDriver (seq 0 7)) 10 (Some 3%Z) None usersState = Some o)
    as [o Ho] by (eexists; vm_compute; reflexivity).
  exists o. split; [exact Ho|].
  exact (chunk_returns_after_first_empty_page (staticDriver (seq 0 7)) 10
           (Some 3%Z) usersState o Ho).
Defined.

Lemma chunk_never_returns_while_rows_come_witness :
  (∀ q, execFind endlessDriver q ≠ [])
  ∧ chunk endlessDriver 50 (Some 10%Z) None usersState = None.
Proof.
  assert (∀ q, execFind endlessDriver q ≠ []) as Hrows by done.
  split; [exact Hrows|].
  exact (chunk_never_returns_while_rows_come endlessDriver (Some 10%Z) usersState
           Hrows 50).
Defined.

End PagerMoreFacts.

(** ** Schema builder and schema operations *)

Module SchemaMoreFacts.

Import Database Schema SchemaSpec SchemaMoreSpec PoolOps Samples MoreSamples.
Import PoolFacts PoolOpsFacts SchemaFacts.

Lemma declare_taken decls b :
  Forall taken decls →
  forIn declare decls b =
    Return tt {| collection := collection b;
                 createIndexes := createIndexes b ++ declaredCreates decls;
                 dropIndexes := dropIndexes b ++ declaredDrops decls |}.
Proof.
  intros Hall. revert b. induction Hall as [|d decls Hd _ IH]; intros b; simpl.
  - unfold ret. rewrite !app_nil_r. by destruct b.
  - unfold bind. destruct d as [name keys options|name]; simpl.
    + destruct Hd as (Hn & k & -> & Hk). unfold index. rewrite Hn. simpl.
      rewrite bool_decide_false by (by destruct k).
      unfold modify. rewrite IH. simpl. by rewrite <- app_assoc.
    + unfold dropIndex, modify. rewrite IH. simpl. by rewrite <- app_assoc.
Qed.

Lemma declare_refused d b :
  refused d → ∃ msg, declare d b = Throw (InvalidArgumentException msg) b.
Proof.
  intros (name & keys & options & -> & Hbad). simpl. unfold index.
  destruct (truthy name) eqn:Hn; simpl; [|by eexists].
  destruct Hbad as [?|[-> | ->]]; [congruence| |]; by eexists.
Qed.

Lemma forIn_app {S A} (f : A → M S unit) (l1 l2 : list A) s :
  forIn f (l1 ++ l2) s =
    match forIn f l1 s with
    | Return _ s1 => forIn f l2 s1
    | Throw e s1 => Throw e s1
    end.
Proof.
  revert s. induction l1 as [|x l1 IH]; intros s; simpl; [done|].
  unfold bind. destruct (f x s); [apply IH|done].
Qed.

(** X12. When the callback given to [createCollection] makes an [index]
    call without a name or without keys, the operation fails with that
    error after the collection has been created and without a single
    index call: the declarations made before the refused one are lost
    with it. *)
Theorem createCollection_refused_declaration Config env collectionName
    before bad after w db p :
  await_connection Config env "default" (pool w) = Return db p →
  Forall taken before →
  refused bad →
  ∃ msg,
    createCollection Config env collectionName
      (forIn declare (before ++ bad :: after)) w
    = Throw (InvalidArgumentException msg)
        {| pool := p; calls := calls w ++ [DbCreateCollection db collectionName] |}.
Proof.
  intros Hdb Hbefore Hbad.
  unfold createCollection. unfold bind at 1, liftPool. rewrite Hdb.
  unfold db_createCollection, driverCall, modify, runCallback.
  cbn -[forIn build declare].
  rewrite forIn_app, declare_taken by done. cbn [forIn]. unfold bind.
  match goal with |- context [declare bad ?b] =>
    destruct (declare_refused bad b Hbad) as [msg ->] end.
  by exists msg.
Qed.

Lemma createCollection_refused_declaration_witness :
  await_connection sampleConfig sampleEnv "default" initial
  = Return 0%nat
      {| connectionPools := {[ "mongo" := 0%nat ]};
         connects := [connectionString sampleEnv localApp];
         inflight := []; closed := [] |}
  ∧ Forall taken [Index (PStr "email_idx") (Some [("email", PInt 1)]) None]
  ∧ refused (Index (PStr "") (Some [("age", PInt 1)]) None)
  ∧ ∃ msg,
      calls (stateOf
        (createCollection sampleConfig sampleEnv "users"
           (forIn declare
              ([Index (PStr "email_idx") (Some [("email", PInt 1)]) None]
               ++ Index (PStr "") (Some [("age", PInt 1)]) None :: []))
           {| pool := initial; calls := [] |}))
      = [DbCreateCollection 0%nat "users"]
      ∧ returned
          (createCollection sampleConfig sampleEnv "users"
             (forIn declare
                ([Index (PStr "email_idx") (Some [("email", PInt 1)]) None]
                 ++ Index (PStr "") (Some [("age", PInt 1)]) None :: []))
             {| pool := initial; calls := [] |}) = None
      ∧ msg = "param name is required to create index".
Proof.
  assert (Forall taken [Index (PStr "email_idx") (Some [("email", PInt 1)]) None])
    as Htaken.
  { repeat constructor. by eexists. }
  assert (refused (Index (PStr "") (Some [("age", PInt 1)]) None)) as Hbad.
  { do 3 eexists. split; [done|]. by left. }
  split; [reflexivity|]. split; [exact Htaken|]. split; [exact Hbad|].
  destruct (createCollection_refused_declaration sampleConfig sampleEnv "users"
              [Index (PStr "email_idx") (Some [("email", PInt 1)]) None]
              (Index (PStr "") (Some [("age", PInt 1)]) None) []
              {| pool := initial; calls := [] |} _ _ eq_refl Htaken Hbad)
    as [msg Hrun].
  exists "param name is required to create index".
  rewrite Hrun. split; [reflexivity|]. split; reflexivity.
Defined.

Lemma readProp_setProp k v o : readProp k (setProp k v o) = v.
Proof.
  induction o as [|[k' v'] o IH]; simpl.
  - by rewrite String.eqb_refl.
  - destruct (String.eqb k' k) eqn:He; simpl.
    + by rewrite String.eqb_refl.
    + by rewrite He.
Qed.

Lemma readProp_setProp_ne k k' v o :
  k ≠ k' → readProp k' (setProp k v o) = readProp k' o.
Proof.
  intros Hne. induction o as [|[k0 v0] o IH]; simpl.
  - by destruct (String.eqb_spec k k').
  - destruct (String.eqb_spec k0 k) as [->|Hk0]; simpl.
    + by destruct (String.eqb_spec k k').
    + by rewrite IH.
Qed.

Lemma setProp_keys k v o :
  (setProp k v o).*1 = if bool_decide (k ∈ o.*1) then o.*1 else o.*1 ++ [k].
Proof.
  induction o as [|[k0 v0] o IH]; [done|]. cbn [setProp].
  destruct (String.eqb_spec k0 k) as [->|Hk0].
  - rewrite !fmap_cons. cbn [fst]. by rewrite bool_decide_true by left.
  - rewrite !fmap_cons, IH. cbn [fst].
    destruct (decide (k ∈ o.*1)) as [Hin|Hin].
    + rewrite !bool_decide_true; [done|by right|done].
    + rewrite !bool_decide_false; [done| |done].
      intros [?|?]%elem_of_cons; [congruence|done].
Qed.

(** X13. An [index] call that is taken queues one creation whose
    options carry the name given to the call under [name], whatever
    [name] the caller's options had, and every other option of the
    caller unchanged; no option is added besides [name], and the queue
    of drops is not touched. *)
Theorem index_sets_name_option name keyFields options b :
  truthy name = true →
  keyFields ≠ [] →
  ∃ queued,
    index name (Some keyFields) options b =
      Return tt {| collection := collection b;
                   createIndexes := createIndexes b ++ [queued];
                   dropIndexes := dropIndexes b |}
    ∧ keys queued = keyFields
    ∧ readProp "name" (Schema.options queued) = name
    ∧ (∀ k, k ≠ "name" →
         readProp k (Schema.options queued) = readProp k (default [] options))
    ∧ (Schema.options queued).*1
      = if bool_decide ("name" ∈ (default [] options).*1)
        then (default [] options).*1
        else (default [] options).*1 ++ ["name"].
Proof.
  intros Hn Hk. eexists. split.
  - unfold index. rewrite Hn. simpl.
    rewrite bool_decide_false by (by destruct keyFields). reflexivity.
  - simpl. split; [done|]. split; [apply readProp_setProp|].
    split; [|apply setProp_keys].
    intros k Hne. by apply readProp_setProp_ne.
Qed.

Lemma index_sets_name_option_witness :
  truthy (PStr "email_idx") = true
  ∧ [("email", PInt 1)] ≠ ([] : object)
  ∧ ∃ queued,
      index (PStr "email_idx") (Some [("email", PInt 1)])
        (Some [("name", PStr "other"); ("unique", PBool true)])
        (newSchemaBuilder users)
      = Return tt {| collection := users; createIndexes := [queued];
                     dropIndexes := [] |}
      ∧ Schema.options queued
        = [("name", PStr "email_idx"); ("unique", PBool true)].
Proof.
  split; [done|]. split; [done|].
  destruct (index_sets_name_option (PStr "email_idx") [("email", PInt 1)]
              (Some [("name", PStr "other"); ("unique", PBool true)])
              (newSchemaBuilder users) eq_refl ltac:(done))
    as (queued & Hrun & _).
  exists queued. split; [exact Hrun|].
  simpl in Hrun. by injection Hrun as <-.
Defined.

(** X14. [build] reads properties of each queued drop entry; when an
    entry is [undefined] or [null] (a [dropIndex] call without a name),
    [build] fails with a type error there: the creations and the drop
    calls for the entries before it have been issued, nothing is issued
    for the entries after it. *)
Theorem build_nullish_drop_entry this before bad after w :
  dropIndexes this = before ++ bad :: after →
  Forall (λ n, ¬ nullish n) before →
  nullish bad →
  build this w =
    Throw TypeError
      {| pool := pool w;
         calls := calls w
           ++ map (λ d, CollCreateIndex (collection this) (keys d) (Schema.options d))
                  (createIndexes this)
           ++ map (λ _, CollDropIndex (collection this) PUndef PUndef) before |}.
Proof.
  intros Hdrops Hbefore Hbad. unfold build, bind. rewrite forIn_driverCall.
  rewrite Hdrops, forIn_app.
  rewrite (forIn_ext _ (λ _, driverCall (CollDropIndex (collection this) PUndef PUndef))
             before).
  - rewrite forIn_driverCall. simpl. unfold bind.
    destruct Hbad as [-> | ->]; simpl; by rewrite <- app_assoc.
  - eapply Forall_impl; [exact Hbefore|]. intros n Hn.
    destruct n; try done; exfalso; apply Hn; [by left|by right].
Qed.

Lemma build_nullish_drop_entry_witness :
  Forall (λ n, ¬ nullish n) [PStr "legacy_idx"]
  ∧ nullish PUndef
  ∧ ∃ b,
      forIn declare [DropIndex (PStr "legacy_idx"); DropIndex PUndef;
                     DropIndex (PStr "other_idx")] (newSchemaBuilder users)
      = Return tt b
      ∧ build b {| pool := initial; calls := [] |}
        = Throw TypeError
            {| pool := initial;
               calls := [CollDropIndex users PUndef PUndef] |}.
Proof.
  assert (Forall (λ n, ¬ nullish n) [PStr "legacy_idx"]) as Hb.
  { repeat constructor. by intros [?|?]. }
  split; [exact Hb|]. split; [by left|].
  eexists. split; [reflexivity|].
  rewrite (build_nullish_drop_entry _ [PStr "legacy_idx"] PUndef [PStr "other_idx"]);
    [reflexivity|reflexivity|exact Hb|by left].
Defined.

(** X15. When the default connection cannot be had (no default
    configured, no configuration for it), each of the five schema
    operations fails with the error of [connection] and has made no
    driver call. *)
Theorem schema_operations_need_the_connection Config env w e p :
  await_connection Config env "default" (pool w) = Throw e p →
  let failed := Throw e {| pool := p; calls := calls w |} in
  (∀ collectionName callback,
     createCollection Config env collectionName callback w = failed)
  ∧ (∀ collectionName callback,
       createCollectionIfNotExists Config env collectionName callback w = failed)
  ∧ (∀ collectionName, dropCollection Config env collectionName w = failed)
  ∧ (∀ collectionName, dropIfExists Config env collectionName w = failed)
  ∧ (∀ collectionName target,
       renameCollection Config env collectionName target w = failed).
Proof.
  intros Hdb failed.
  repeat split; intros;
    unfold createCollection, createCollectionIfNotExists, dropCollection,
      dropIfExists, renameCollection;
    unfold bind at 1, liftPool; by rewrite Hdb.
Qed.

Lemma schema_operations_need_the_connection_witness :
  await_connection ∅ sampleEnv "default" initial
  = Throw (MissingConfig
             "Make sure to define a connection inside the database config file")
          initial
  ∧ dropCollection ∅ sampleEnv "users" {| pool := initial; calls := [] |}
    = Throw (MissingConfig
               "Make sure to define a connection inside the database config file")
            {| pool := initial; calls := [] |}.
Proof.
  assert (await_connection ∅ sampleEnv "default" initial
          = Throw (MissingConfig
                     "Make sure to define a connection inside the database config file")
                  initial) as Hdb by reflexivity.
  split; [exact Hdb|].
  destruct (schema_operations_need_the_connection ∅ sampleEnv
              {| pool := initial; calls := [] |} _ _ Hdb)
    as (_ & _ & Hdrop & _).
  exact (Hdrop "users").
Defined.

Lemma liftPool_await_miss Config env key c w :
  _resolveConnectionKey Config "default" = inr key →
  connectionPools (pool w) !! key = None →
  Config !! ("database." +:+ key) = Some (CfgDb c) →
  inflight (pool w) = [] →
  liftPool (await_connection Config env "default") w =
    Return (length (connects (pool w)))
      {| pool :=
           {| connectionPools :=
                <[key := length (connects (pool w))]> (connectionPools (pool w));
              connects := connects (pool w) ++ [connectionString env (connection_ c)];
              inflight := [];
              closed := closed (pool w) |};
         calls := calls w |}.
Proof.
  intros Hk Hp Hc Hi. unfold liftPool. by rewrite (await_miss _ _ _ key c).
Qed.

Lemma liftPool_await_hit Config env key h w :
  _resolveConnectionKey Config "default" = inr key →
  connectionPools (pool w) !! key = Some h →
  liftPool (await_connection Config env "default") w = Return h w.
Proof.
  intros Hk Hp. unfold liftPool, await_connection.
  rewrite (connection_hit _ _ _ key h) by done. by destruct w.
Qed.

(** X16. Schema operations run one after the other share the pooled
    default connection: the first one opens it, the second one finds it
    in the pool, so one connect is issued for the two and both driver
    calls go to the same handle. *)
Theorem schema_operations_share_the_connection Config env key c w a b target :
  _resolveConnectionKey Config "default" = inr key →
  connectionPools (pool w) !! key = None →
  Config !! ("database." +:+ key) = Some (CfgDb c) →
  inflight (pool w) = [] →
  ∃ w',
    (exec dropCollection Config env a in renameCollection Config env b target) w
    = Return tt w'
    ∧ connects (pool w') = connects (pool w) ++ [connectionString env (connection_ c)]
    ∧ calls w' = calls w ++ [DbDropCollection (length (connects (pool w))) a;
                             DbRename (length (connects (pool w))) b target]
    ∧ connectionPools (pool w') !! key = Some (length (connects (pool w))).
Proof.
  intros Hk Hp Hc Hi. eexists. split.
  - unfold bind at 1, dropCollection. unfold bind at 1.
    rewrite (liftPool_await_miss _ _ key c) by done.
    unfold driverCall at 1, modify. cbn [pool calls].
    unfold renameCollection, bind.
    rewrite (liftPool_await_hit _ _ key (length (connects (pool w))));
      [|done|apply lookup_insert_eq].
    reflexivity.
  - simpl. split; [done|]. split; [by rewrite <- app_assoc|].
    apply lookup_insert_eq.
Qed.

Lemma schema_operations_share_the_connection_witness :
  _resolveConnectionKey sampleConfig "default" = inr "mongo"
  ∧ inflight initial = []
  ∧ ∃ w',
      (exec dropCollection sampleConfig sampleEnv "old" in
       renameCollection sampleConfig sampleEnv "users" "people")
        {| pool := initial; calls := [] |}
      = Return tt w'
      ∧ length (connects (pool w')) = 1%nat
      ∧ calls w' = [DbDropCollection 0%nat "old"; DbRename 0%nat "users" "people"].
Proof.
  split; [reflexivity|]. split; [reflexivity|].
  destruct (schema_operations_share_the_connection sampleConfig sampleEnv "mongo"
              {| connection_ := localApp; prefix := PUndef |}
              {| pool := initial; calls := [] |} "old" "users" "people"
              eq_refl eq_refl eq_refl eq_refl)
    as (w' & Hrun & Hcon & Hcalls & _).
  exists w'. split; [exact Hrun|]. split; [by rewrite Hcon|exact Hcalls].
Defined.

End SchemaMoreFacts.

(** ** The module proxy *)

Module ProxyFacts.

Import Database Proxy Samples.
Import PoolFacts.

(** X17. Every read of a property that is not one of the six custom
    implementations calls [Database.connection('default')]. As long as
    no connect has completed, each such read misses the pool: reads made
    one after the other open one connection each, and none of them
    changes the pool. Reads of the six custom names open nothing. *)
Theorem proxied_reads_open_connections Config env key c names s :
  _resolveConnectionKey Config "default" = inr key →
  connectionPools s !! key = None →
  Config !! ("database." +:+ key) = Some (CfgDb c) →
  ∃ s',
    getAll Config env names s = inr s'
    ∧ connectionPools s' = connectionPools s
    ∧ connects s' =
        connects s ++ replicate (length (forwarded names))
                        (connectionString env (connection_ c))
    ∧ length (inflight s') = (length (inflight s) + length (forwarded names))%nat
    ∧ closed s' = closed s.
Proof.
  intros Hk Hp Hc. revert s Hp.
  induction names as [|name names IH]; intros s Hp.
  - exists s. simpl. rewrite app_nil_r. split; [done|]. split; [done|].
    split; [done|]. split; [lia|done].
  - simpl getAll. unfold get, forwarded.
    destruct (decide (name ∈ customImplementations)) as [Hin|Hout].
    + rewrite bool_decide_true by done.
      rewrite filter_cons_False by (by intros ?).
      by apply IH.
    + rewrite bool_decide_false by done.
      rewrite filter_cons_True by done.
      rewrite (connection_miss _ _ _ key c) by done.
      match goal with |- context [getAll _ _ _ ?s1] =>
        destruct (IH s1) as (s' & Hrun & Hpool & Hcon & Hin & Hcl) end; [done|].
      exists s'. split; [done|]. split; [done|]. simpl in *.
      split; [by rewrite Hcon, <- app_assoc|].
      split; [|done]. rewrite Hin, length_app. simpl. unfold forwarded. lia.
Qed.

Lemma proxied_reads_open_connections_witness :
  _resolveConnectionKey sampleConfig "default" = inr "mongo"
  ∧ connectionPools initial !! "mongo" = None
  ∧ ∃ s',
      getAll sampleConfig sampleEnv ["collection"; "close"; "transaction"; "then"]
        initial = inr s'
      ∧ connectionPools s' = ∅
      ∧ length (connects s') = 3%nat
      ∧ length (inflight s') = 3%nat.
Proof.
  split; [reflexivity|]. split; [reflexivity|].
  destruct (proxied_reads_open_connections sampleConfig sampleEnv "mongo"
              {| connection_ := localApp; prefix := PUndef |}
              ["collection"; "close"; "transaction"; "then"] initial
              eq_refl eq_refl eq_refl)
    as (s' & Hrun & Hpool & Hcon & Hin & _).
  exists s'. split; [exact Hrun|]. split; [exact Hpool|].
  split; [by rewrite Hcon|exact Hin].
Defined.

End ProxyFacts.

(** ** Collection names and prefixes *)

Module PrefixFacts.

Import Prefix.

Lemma everSkipped_cons c cs :
  everSkipped (c :: cs) = bool_decide (c = WithoutPrefix) || everSkipped cs.
Proof.
  unfold everSkipped. rewrite <- bool_decide_or. apply bool_decide_ext.
  rewrite elem_of_cons. split; (intros [?|?]; [by left|by right]).
Qed.

Lemma chain_fields cs :
  ∀ this this',
    chain cs this = inr this' →
    _instancePrefix this'
    = foldl (λ p c, match c with WithPrefix prefix => prefix | _ => p end)
            (_instancePrefix this) cs
    ∧ _skipPrefix this' = _skipPrefix this || everSkipped cs
    ∧ client this' = client this.
Proof.
  induction cs as [|c cs IH]; intros this this'.
  - simpl. intros [= <-]. by rewrite orb_false_r.
  - cbn [chain]. destruct (apply c this) as [e|this1] eqn:Hc; [done|]. intros Hrest.
    destruct (IH _ _ Hrest) as (Hp & Hs & Hcl). rewrite Hp, Hs, Hcl.
    rewrite everSkipped_cons. cbn [foldl].
    destruct c as [n|p|]; simpl in Hc.
    + unfold collection in Hc.
      destruct (if truthy (_instancePrefix this) then _ else _); [done|].
      by injection Hc as <-.
    + by injection Hc as <-.
    + injection Hc as <-. simpl. by rewrite orb_true_r.
Qed.

(** X18. After any chain of [collection], [withPrefix] and
    [withoutPrefix] calls on a query object, the name a [collection]
    call hands on depends on three things only: the prefix of the last
    [withPrefix] call, used when it is truthy, else the prefix of the
    client's configuration; and whether [withoutPrefix] was called at
    any time before, which turns the prefix off for good. Without a
    usable [withPrefix] and without a client the call fails with a type
    error, also when the prefix is turned off. *)
Theorem collection_name_after_chain cs clientPrefix this collectionName :
  chain cs (fresh clientPrefix) = inr this →
  (truthy (lastPrefix cs) = false → clientPrefix = None →
     collection collectionName this = inl TypeError)
  ∧ (∀ prefix,
       (if truthy (lastPrefix cs) then Some (lastPrefix cs) else clientPrefix)
       = Some prefix →
       ∃ this',
         collection collectionName this = inr this'
         ∧ handed this' =
             handed this ++
               [if truthy prefix && negb (everSkipped cs)
                then toStr prefix +:+ collectionName
                else collectionName]).
Proof.
  intros Hchain. destruct (chain_fields _ _ _ Hchain) as (Hp & Hs & Hc).
  simpl in Hp, Hs, Hc. fold (lastPrefix cs) in Hp. split.
  - intros Hfalsy ->. unfold collection. by rewrite Hp, Hfalsy, Hc.
  - intros prefix Hprefix. unfold collection. rewrite Hp, Hc, Hs.
    destruct (truthy (lastPrefix cs)).
    + injection Hprefix as <-. by eexists.
    + rewrite Hprefix. by eexists.
Qed.

Lemma collection_name_after_chain_witness :
  chain [WithoutPrefix; Collection "users"; WithPrefix (PStr "tmp_")]
        (fresh (Some (PStr "app_")))
  = inr {| _instancePrefix := PStr "tmp_"; _skipPrefix := true;
           client := Some (PStr "app_"); handed := ["users"] |}
  ∧ ∃ this',
      collection "orders"
        {| _instancePrefix := PStr "tmp_"; _skipPrefix := true;
           client := Some (PStr "app_"); handed := ["users"] |} = inr this'
      ∧ handed this' = ["users"; "orders"].
Proof.
  split; [reflexivity|].
  destruct (collection_name_after_chain
              [WithoutPrefix; Collection "users"; WithPrefix (PStr "tmp_")]
              (Some (PStr "app_")) _ "orders" eq_refl) as [_ Hname].
  exact (Hname (PStr "tmp_") eq_refl).
Defined.

End PrefixFacts.

(** ** Transactions *)

Module TransactionFacts.

Import Transaction.

(** X19. Whatever the callback does, the chain that
    [Database.transaction] builds does one of three things: when the
    callback returned and the commit went through, one commit with the
    value the callback returned and no rollback; when the commit was
    rejected, that commit followed by one rollback with the error of the
    commit; when the callback failed, one rollback with its error and no
    commit. The chain ends in a rejection in one case only: a rollback
    was made and was itself rejected. *)
Theorem transaction_commits_or_rolls_back {U A}
    (commitFails rollbackFails : option error) (cb : M U A) (s : state U A) :
  let o := handler commitFails rollbackFails cb s in
  match cb (user s) with
  | Return a u =>
      user (stateOf o) = u
      ∧ txlog (stateOf o)
        = txlog s ++ Committed a ::
            match commitFails with
            | Some e => [RolledBack e]
            | None => []
            end
      ∧ o = match commitFails, rollbackFails with
            | Some _, Some e' => Throw e' (stateOf o)
            | _, _ => Return tt (stateOf o)
            end
  | Throw e u =>
      user (stateOf o) = u
      ∧ txlog (stateOf o) = txlog s ++ [RolledBack e]
      ∧ o = match rollbackFails with
            | Some e' => Throw e' (stateOf o)
            | None => Return tt (stateOf o)
            end
  end.
Proof.
  unfold handler, catch_, then_, bind, runCallback, commit, rollback.
  destruct (cb (user s)) as [a u|e u]; simpl.
  - destruct commitFails as [e|], rollbackFails as [e'|]; simpl;
      by rewrite <- ?app_assoc.
  - by destruct rollbackFails as [e'|].
Qed.

End TransactionFacts.

(** ** The embedded to-one relation: loading *)

Module EmbedsOneMoreFacts.

Import Doc DocSpec DocFacts EmbedsOne EmbedsOneSpec EmbedsOneMoreSpec Samples.
Import EmbedsOneFacts.

Section Facts.

Context {RelatedQuery : Type}.
Implicit Types (s : state RelatedQuery) (rel : Relation RelatedQuery).

Lemma applyScope_scoped scopeMethod s :
  applyScope scopeMethod s = Return tt (scoped scopeMethod s).
Proof. unfold scoped. by destruct scopeMethod. Qed.

Lemma scoped_fields scopeMethod s :
  parent (this (scoped scopeMethod s)) = parent (this s)
  ∧ related (this (scoped scopeMethod s)) = related (this s)
  ∧ fromKey (this (scoped scopeMethod s)) = fromKey (this s)
  ∧ toKey (this (scoped scopeMethod s)) = toKey (this s)
  ∧ nextId (scoped scopeMethod s) = nextId s
  ∧ uuids (scoped scopeMethod s) = uuids s
  ∧ effects (scoped scopeMethod s) = effects s.
Proof. unfold scoped. by destruct scopeMethod. Qed.

(** X20. Loading one row with [eagerLoad] is loading it with
    [eagerLoadSingle] under the row's own fromKey value: the two give
    the same mapping (or the same failure) and leave the same state. *)
Theorem eagerLoad_one_row_is_eagerLoadSingle values scopeMethod row s :
  eagerLoad values scopeMethod [row] s
  = eagerLoadSingle (getProp row (fromKey (this s))) scopeMethod row s.
Proof.
  unfold eagerLoad, eagerLoadSingle. unfold bind at 1 4.
  rewrite applyScope_scoped.
  destruct (scoped_fields scopeMethod s) as (_ & _ & Hfrom & Hto & _).
  unfold bind at 1 3, getThis. rewrite Hfrom, Hto.
  unfold mapValues, keyBy. simpl foldl. rewrite insert_empty.
  unfold bind at 1. rewrite map_to_list_singleton. cbn [traverse snd fst].
  unfold bind.
  destruct (liftE (propOf row (toKey (this s))) (scoped scopeMethod s))
    as [embedded s1|e s1]; [|done].
  destruct (loadEmbedded embedded s1) as [w s2|e s2]; [|done].
  reflexivity.
Qed.

Lemma allocatedOnly_refl s : allocatedOnly s s.
Proof. by repeat split. Qed.

Lemma allocatedOnly_trans s1 s2 s3 :
  allocatedOnly s1 s2 → allocatedOnly s2 s3 → allocatedOnly s1 s3.
Proof.
  intros (?&?&?&?) (?&?&?&?). repeat split; try congruence. lia.
Qed.

Lemma liftE_state {B} (r : error + B) s :
  stateOf (liftE r s) = s.
Proof. by destruct r. Qed.

Lemma allocatedOnly_load row k s :
  allocatedOnly s
    (stateOf ((let* embedded := liftE (propOf row k) in loadEmbedded embedded) s)).
Proof.
  unfold bind at 1. unfold liftE.
  destruct (propOf row k) as [e|embedded]; simpl; [apply allocatedOnly_refl|].
  repeat split; try done. apply cloneDeep_mono.
Qed.

Lemma allocatedOnly_traverse {B} (f : value → M (state RelatedQuery) B)
    (l : list (string * value)) s :
  (∀ v s0, allocatedOnly s0 (stateOf (f v s0))) →
  allocatedOnly s
    (stateOf (traverse (λ kv, let* b := f kv.2 in ret (kv.1, b)) l s)).
Proof.
  intros Hf. revert s. induction l as [|kv l IH]; intros s.
  - apply allocatedOnly_refl.
  - cbn [traverse]. unfold bind at 1 2. pose proof (Hf kv.2 s) as H1.
    destruct (f kv.2 s) as [b s1|e s1]; simpl in *; [|done].
    unfold bind at 1. pose proof (IH s1) as H2.
    destruct (traverse _ l s1) as [l' s2|e s2]; simpl in *;
      by eapply allocatedOnly_trans.
Qed.

Lemma eagerLoad_allocates_only values scopeMethod results s :
  allocatedOnly (scoped scopeMethod s)
    (stateOf (eagerLoad values scopeMethod results s)).
Proof.
  unfold eagerLoad. unfold bind at 1. rewrite applyScope_scoped.
  unfold bind at 1, getThis. unfold mapValues. unfold bind at 1.
  match goal with |- context [traverse _ ?l ?s0] =>
    pose proof (allocatedOnly_traverse
                  (λ value, let* embedded :=
                              liftE (propOf value (toKey (this (scoped scopeMethod s))))
                            in loadEmbedded embedded) l s0
                  (λ v s1, allocatedOnly_load v _ s1)) as Hal
  end.
  cbv beta in Hal.
  match goal with |- context [traverse ?g ?l ?s0] =>
    destruct (traverse g l s0) as [l' s2|e s2] end; exact Hal.
Qed.

(** X21. [eagerLoad] of an embedded relation reads and allocates only:
    whatever the rows are, and also when it fails, it persists nothing,
    warns of nothing, generates no identifier and leaves the parent and
    the keys of the relation as they were; the related query is changed
    by the scope callback alone. *)
Theorem eagerLoad_touches_nothing_else values scopeMethod results s :
  untouched s (stateOf (eagerLoad values scopeMethod results s))
  ∧ relatedQuery (this (stateOf (eagerLoad values scopeMethod results s)))
    = match scopeMethod with
      | Some f => f (relatedQuery (this s))
      | None => relatedQuery (this s)
      end.
Proof.
  destruct (eagerLoad_allocates_only values scopeMethod results s)
    as (Hthis & Hu & He & Hn).
  destruct (scoped_fields scopeMethod s) as (?&?&?&?&?&?&?).
  split; [repeat split; try congruence; lia|].
  rewrite Hthis. unfold scoped. by destruct scopeMethod.
Qed.

Lemma load_nullish row k s :
  isNullish row →
  (let* embedded := liftE (propOf row k) in loadEmbedded embedded) s
  = Throw TypeError s.
Proof. by intros [-> | ->]. Qed.

Lemma load_throws_type_error row k s e s' :
  (let* embedded := liftE (propOf row k) in loadEmbedded embedded) s = Throw e s' →
  e = TypeError.
Proof.
  unfold bind at 1. unfold liftE.
  destruct (propOf row k) as [e0|embedded] eqn:Hp; simpl.
  - intros [= <- _]. unfold propOf in Hp.
    destruct row as [[]| |]; congruence.
  - done.
Qed.

Lemma traverse_throws {B} (f : value → M (state RelatedQuery) B)
    (l : list (string * value)) k0 v0 :
  (∀ v s e s', f v s = Throw e s' → e = TypeError) →
  (∀ s, f v0 s = Throw TypeError s) →
  (k0, v0) ∈ l →
  ∀ s, ∃ s',
    traverse (λ kv, let* b := f kv.2 in ret (kv.1, b)) l s = Throw TypeError s'.
Proof.
  intros Honly Hv0. induction l as [|kv l IH]; intros Hin s.
  - by apply elem_of_nil in Hin.
  - cbn [traverse]. unfold bind at 1 2.
    destruct (f kv.2 s) as [b s1|e s1] eqn:Hf.
    + apply elem_of_cons in Hin as [Heq|Hin].
      * subst kv. simpl in Hf. by rewrite Hv0 in Hf.
      * unfold ret at 1. unfold bind at 1.
        destruct (IH Hin s1) as [s' ->]. by exists s'.
    + apply Honly in Hf as ->. by exists s1.
Qed.

(** X22. A result set whose last row is [undefined] or [null] makes
    [eagerLoad] fail with a type error: [keyBy] files that row under the
    key "undefined", and the callback reads a property of it. *)
Theorem eagerLoad_nullish_last_row values scopeMethod before bad s :
  isNullish bad →
  ∃ s', eagerLoad values scopeMethod (before ++ [bad]) s = Throw TypeError s'.
Proof.
  intros Hbad. unfold eagerLoad. unfold bind at 1. rewrite applyScope_scoped.
  unfold bind at 1, getThis. unfold mapValues. unfold bind at 1.
  match goal with |- context [traverse ?g (map_to_list ?m) ?s0] =>
    destruct (traverse_throws
                (λ value, let* embedded :=
                            liftE (propOf value (toKey (this (scoped scopeMethod s))))
                          in loadEmbedded embedded)
                (map_to_list m)
                (keyOf (fromKey (this (scoped scopeMethod s))) bad) bad) with (s := s0)
      as [s' Hs']
  end.
  - intros v s0 e s1. apply load_throws_type_error.
  - intros s0. by apply load_nullish.
  - apply elem_of_map_to_list. rewrite keyBy_snoc. apply lookup_insert_eq.
  - rewrite Hs'. by exists s'.
Qed.

(** X23. For a document [result], [eagerLoadSingle] returns a mapping
    with one entry, under the key the given value turns into; the entry
    is an instance of the related model whose attributes are the
    embedded toKey field of the document (the very object), marked as
    existing, with a deep copy of the attributes as original. *)
Theorem eagerLoadSingle_spec key scopeMethod result s :
  isDoc result →
  allocatedBelow (nextId s) result →
  ∃ w s',
    eagerLoadSingle key scopeMethod result s
    = Return {[ toPropertyKey key := w ]} s'
    ∧ constructor_ (value_ w) = related (this s)
    ∧ attributes (value_ w) = getProp result (toKey (this s))
    ∧ exists_ (value_ w) = true
    ∧ content (original (value_ w)) = content (attributes (value_ w))
    ∧ (∀ i, i ∈ ids (original (value_ w)) → i ∉ ids (attributes (value_ w))).
Proof.
  intros Hdoc Hbelow.
  destruct (scoped_fields scopeMethod s) as (_ & Hrel & _ & Hto & Hnext & _).
  destruct (loadEmbedded_row (related (this s)) (toKey (this s)) (nextId s) result
              (scoped scopeMethod s) Hdoc Hrel) as (w & s' & Hload & _ & Hw);
    [lia|].
  destruct Hw as (HC & Hattr & Hex & Hcopy).
  exists w, s'. split.
  - unfold eagerLoadSingle. unfold bind at 1. rewrite applyScope_scoped.
    unfold bind at 1, getThis. rewrite Hto.
    unfold bind at 1 in Hload. unfold bind at 1.
    destruct (liftE (propOf result (toKey (this s))) (scoped scopeMethod s))
      as [embedded s1|e s1]; [|done].
    unfold bind at 1. rewrite Hload. unfold ret. by rewrite insert_empty.
  - repeat (split; [done|]). split; [by destruct Hcopy|].
    eapply deepCopy_disjoint; [exact Hcopy|].
    rewrite Hattr. by apply getProp_allocated.
Qed.

Lemma lookup_removeField k fields : lookupField k (removeField k fields) = undefined.
Proof.
  unfold removeField. induction fields as [|[k' x] fields IH]; [done|].
  destruct (decide (k' = k)) as [->|Hne].
  - by rewrite filter_cons_False by (simpl; tauto).
  - rewrite filter_cons_True by done. simpl.
    by destruct (String.eqb_spec k' k).
Qed.

Lemma lookup_removeField_ne k k' fields :
  k ≠ k' → lookupField k' (removeField k fields) = lookupField k' fields.
Proof.
  intros Hne. unfold removeField. induction fields as [|[k0 x] fields IH]; [done|].
  destruct (decide (k0 = k)) as [->|Hk0].
  - rewrite filter_cons_False by (simpl; tauto). simpl.
    by destruct (String.eqb_spec k k').
  - rewrite filter_cons_True by done. simpl. by rewrite IH.
Qed.

Lemma removeField_assignField k x fields :
  removeField k (assignField k x fields) = removeField k fields.
Proof.
  unfold removeField. induction fields as [|[k' x'] fields IH]; simpl.
  - by rewrite filter_cons_False by (simpl; tauto).
  - destruct (String.eqb_spec k' k) as [->|Hne].
    + rewrite !filter_cons_False by (simpl; tauto). done.
    + rewrite !filter_cons_True by done. by rewrite IH.
Qed.

Lemma removeField_absent k fields :
  Forall (λ kv, kv.1 ≠ k) fields → removeField k fields = fields.
Proof.
  unfold removeField. induction 1 as [|kv fields Hkv _ IH]; [done|].
  rewrite filter_cons_True by done. by rewrite IH.
Qed.

(** What a [delete] on a persisted parent does. *)
Lemma delete_run s pid pfields :
  exists_ (parent (this s)) = true →
  attributes (parent (this s)) = VObj pid pfields →
  ∃ s',
    delete s = Return tt s'
    ∧ attributes (parent (this s')) = VObj pid (removeField (toKey (this s)) pfields)
    ∧ exists_ (parent (this s')) = true
    ∧ constructor_ (parent (this s')) = constructor_ (parent (this s))
    ∧ (related (this s') = related (this s)
       ∧ fromKey (this s') = fromKey (this s)
       ∧ toKey (this s') = toKey (this s)
       ∧ relatedQuery (this s') = relatedQuery (this s))
    ∧ uuids s' = uuids s
    ∧ effects s' = effects s ++ [Persisted (parent (this s'))].
Proof.
  intros Hex Hp.
  unfold delete, getThis, isNew. unfold bind at 1. rewrite Hex. cbn [negb].
  unfold bind, ret, emit, modify, unsetField, liftE, parentSave, getThis,
    setParent, cloneDeepM, setAttributes.
  rewrite Hp. cbn -[cloneDeep removeField].
  eexists. split; [reflexivity|]. cbn -[cloneDeep removeField]. done.
Qed.

(** What a [save] that returns has done. *)
Lemma save_run (toJSON : Instance → value) (uuid_v4 : nat → string)
    relatedInstance s saved s' :
  save toJSON uuid_v4 relatedInstance s = Return saved s' →
  ∃ pid pfields rid rfields,
    attributes (parent (this s)) = VObj pid pfields
    ∧ attributes relatedInstance = VObj rid rfields
    ∧ (instanceof relatedInstance (related (this s)) = true
       ∧ exists_ (parent (this s)) = true)
    ∧ saved
      = (if truthyV (lookupField (fromKey (this s)) rfields) then relatedInstance
         else setAttributes
                (VObj rid (assignField (fromKey (this s))
                             (VPrim (PStr (uuid_v4 (uuids s)))) rfields))
                relatedInstance)
    ∧ attributes (parent (this s'))
      = VObj pid (assignField (toKey (this s)) (toJSON saved) pfields)
    ∧ exists_ (parent (this s')) = true
    ∧ (related (this s') = related (this s)
       ∧ fromKey (this s') = fromKey (this s)
       ∧ toKey (this s') = toKey (this s)
       ∧ relatedQuery (this s') = relatedQuery (this s))
    ∧ uuids s'
      = (if truthyV (lookupField (fromKey (this s)) rfields) then uuids s
         else S (uuids s))
    ∧ effects s'
      = effects s
        ++ falsyKeyWarning (lookupField (fromKey (this s)) pfields)
             (fromKey (this s))
        ++ [Persisted (parent (this s'))].
Proof.
  unfold save, getThis, isNew. unfold bind at 1.
  destruct (instanceof relatedInstance (related (this s))) eqn:Hi;
    cbn [negb]; [|done].
  destruct (exists_ (parent (this s))) eqn:Hex; cbn [negb]; [|done].
  unfold readField at 1.
  destruct (attributes (parent (this s))) as [|pid pfields|] eqn:Hp; [done| |done].
  unfold liftE at 1, bind at 1, ret at 1.
  destruct (attributes relatedInstance) as [|rid rfields|] eqn:Hr.
  1,3: destruct (truthyV (lookupField (fromKey (this s)) pfields));
       unfold bind, ret, emit, modify, readField, liftE; rewrite Hr; by cbn.
  unfold falsyKeyWarning.
  destruct (truthyV (lookupField (fromKey (this s)) pfields)) eqn:Hown;
    cbn [negb];
    destruct (truthyV (lookupField (fromKey (this s)) rfields)) eqn:Htr.
  all: unfold bind, ret, emit, modify, readField, writeField, liftE, uuid,
         parentSave, getThis, setParent, cloneDeepM, setAttributes;
       rewrite ?Hr, ?Hp; cbn -[cloneDeep]; rewrite ?Htr; cbn -[cloneDeep];
       rewrite ?Hp, ?Hr; cbn -[cloneDeep].
  all: intros [= <- <-]; exists pid, pfields, rid, rfields; cbn -[cloneDeep].
  all: rewrite ?Htr, ?Hown, <- ?app_assoc; by repeat split.
Qed.

(** X24. [delete] on a parent that was never persisted fails with the
    unsaved-target error and changes nothing. On a persisted parent it
    removes the toKey field from the parent and persists the parent:
    the field then reads [undefined], every other field reads as
    before, and the only effect is that one persist. The Model methods
    used (isNew, unset, save) are modelled from the specification. *)
Theorem delete_unsets_embedded_field s :
  (exists_ (parent (this s)) = false →
     delete s
     = Throw (UnSavedTarget "delete" (name (constructor_ (parent (this s))))
                (name (related (this s)))) s)
  ∧ (exists_ (parent (this s)) = true →
     isDoc (attributes (parent (this s))) →
     ∃ s',
       delete s = Return tt s'
       ∧ readField (parent (this s')) (toKey (this s)) = inr undefined
       ∧ (∀ k, k ≠ toKey (this s) →
            readField (parent (this s')) k = readField (parent (this s)) k)
       ∧ exists_ (parent (this s')) = true
       ∧ uuids s' = uuids s
       ∧ effects s' = effects s ++ [Persisted (parent (this s'))]).
Proof.
  split.
  - intros Hex. unfold delete, getThis, isNew. unfold bind at 1.
    by rewrite Hex.
  - intros Hex (pid & pfields & Hp).
    destruct (delete_run s pid pfields Hex Hp)
      as (s' & Hrun & Hattr & Hex' & _ & _ & Hu & He).
    exists s'. split; [exact Hrun|]. unfold readField. rewrite Hattr, Hp.
    split; [by rewrite lookup_removeField|].
    split; [by intros k Hk; rewrite lookup_removeField_ne|done].
Qed.

(** X25. A [save] that returns has logged the falsy-key warning exactly
    when the parent's own fromKey value is falsy, and has generated
    exactly one identifier when the related instance's fromKey value is
    falsy, none otherwise; after the warning, if any, its only effect is
    one persist of the parent. Of the parent's fields only toKey has
    changed, and the relation's model, keys and query are as before. *)
Theorem save_warns_and_generates_as_needed (toJSON : Instance → value)
    (uuid_v4 : nat → string) relatedInstance s saved s' :
  save toJSON uuid_v4 relatedInstance s = Return saved s' →
  ∃ own key,
    readField (parent (this s)) (fromKey (this s)) = inr own
    ∧ readField relatedInstance (fromKey (this s)) = inr key
    ∧ effects s'
      = effects s ++ falsyKeyWarning own (fromKey (this s))
          ++ [Persisted (parent (this s'))]
    ∧ uuids s' = (if truthyV key then uuids s else S (uuids s))
    ∧ (∀ k, k ≠ toKey (this s) →
         readField (parent (this s')) k = readField (parent (this s)) k)
    ∧ related (this s') = related (this s)
    ∧ fromKey (this s') = fromKey (this s)
    ∧ toKey (this s') = toKey (this s)
    ∧ relatedQuery (this s') = relatedQuery (this s).
Proof.
  intros Hrun.
  destruct (save_run toJSON uuid_v4 relatedInstance s saved s' Hrun)
    as (pid & pfields & rid & rfields & Hp & Hr & _ & _ & Hattr & _
        & (Hrel & Hfrom & Hto & Hq) & Hu & He).
  exists (lookupField (fromKey (this s)) pfields),
         (lookupField (fromKey (this s)) rfields).
  unfold readField. rewrite Hp, Hr, Hattr.
  do 4 (split; [done|]).
  split; [by intros k Hk; rewrite lookup_assignField_ne|done].
Qed.

(** X26. [delete] undoes [save]: after a [save] that returned, [delete]
    succeeds and leaves the parent's fields as they were before the
    [save], without the toKey field; when the parent had no such field,
    its attributes are exactly what they were. *)
Theorem save_then_delete_removes_embedded (toJSON : Instance → value)
    (uuid_v4 : nat → string) relatedInstance s saved s1 :
  save toJSON uuid_v4 relatedInstance s = Return saved s1 →
  ∃ s2 pid pfields,
    delete s1 = Return tt s2
    ∧ attributes (parent (this s)) = VObj pid pfields
    ∧ attributes (parent (this s2)) = VObj pid (removeField (toKey (this s)) pfields)
    ∧ (Forall (λ kv, kv.1 ≠ toKey (this s)) pfields →
         attributes (parent (this s2)) = attributes (parent (this s)))
    ∧ readField (parent (this s2)) (toKey (this s)) = inr undefined.
Proof.
  intros Hrun.
  destruct (save_run toJSON uuid_v4 relatedInstance s saved s1 Hrun)
    as (pid & pfields & rid & rfields & Hp & _ & _ & _ & Hattr & Hex
        & (_ & _ & Hto & _) & _).
  destruct (delete_run s1 pid _ Hex Hattr) as (s2 & Hdel & Hattr2 & _).
  rewrite Hto, removeField_assignField in Hattr2.
  exists s2, pid, pfields. split; [exact Hdel|]. split; [exact Hp|].
  split; [exact Hattr2|]. split.
  - intros Habs. by rewrite Hattr2, Hp, removeField_absent.
  - unfold readField. by rewrite Hattr2, lookup_removeField.
Qed.

End Facts.

Lemma delete_unsets_embedded_field_witness :
  exists_ (parent (EmbedsOne.this relationState)) = true
  ∧ isDoc (attributes (parent (EmbedsOne.this relationState)))
  ∧ ∃ s',
      delete relationState = Return tt s'
      ∧ readField (parent (EmbedsOne.this s')) "profile" = inr undefined
      ∧ readField (parent (EmbedsOne.this s')) "_id" = inr (VPrim (PInt 7)).
Proof.
  assert (isDoc (attributes (parent (EmbedsOne.this relationState)))) as Hdoc
    by (by do 2 eexists).
  split; [reflexivity|]. split; [exact Hdoc|].
  destruct (delete_unsets_embedded_field relationState) as [_ Hdel].
  destruct (Hdel eq_refl Hdoc) as (s' & Hrun & Hgone & Hrest & _).
  exists s'. split; [exact Hrun|]. split; [exact Hgone|].
  rewrite (Hrest "_id"); [reflexivity|done].
Defined.

Lemma save_warns_and_generates_as_needed_witness :
  ∃ saved s',
    save attributes sampleUuid newProfile relationState = Return saved s'
    ∧ uuids s' = 1
    ∧ effects s' = [Persisted (parent (EmbedsOne.this s'))].
Proof.
  assert (∃ saved s', save attributes sampleUuid newProfile relationState
                      = Return saved s') as (saved & s' & Hrun)
    by (do 2 eexists; vm_compute; reflexivity).
  exists saved, s'. split; [exact Hrun|].
  destruct (save_warns_and_generates_as_needed attributes sampleUuid newProfile
              relationState saved s' Hrun)
    as (own & key & Hown & Hkey & He & Hu & _).
  injection Hown as <-. injection Hkey as <-. split; [exact Hu|exact He].
Defined.

Lemma save_then_delete_removes_embedded_witness :
  ∃ saved s1 s2,
    save attributes sampleUuid newProfile relationState = Return saved s1
    ∧ delete s1 = Return tt s2
    ∧ attributes (parent (EmbedsOne.this s2))
      = attributes (parent (EmbedsOne.this relationState)).
Proof.
  assert (∃ saved s1, save attributes sampleUuid newProfile relationState
                      = Return saved s1) as (saved & s1 & Hrun)
    by (do 2 eexists; vm_compute; reflexivity).
  destruct (save_then_delete_removes_embedded attributes sampleUuid newProfile
              relationState saved s1 Hrun)
    as (s2 & pid & pfields & Hdel & Hp & _ & Hsame & _).
  exists saved, s1, s2. split; [exact Hrun|]. split; [exact Hdel|].
  apply Hsame. injection Hp as <- <-. repeat constructor; done.
Defined.

Lemma eagerLoadSingle_spec_witness :
  isDoc (VObj 0 [("_id", VPrim (PInt 7));
                 ("profile", VObj 1 [("bio", VPrim (PStr "x"))])])
  ∧ ∃ w s',
      eagerLoadSingle (VPrim (PInt 7)) None
        (VObj 0 [("_id", VPrim (PInt 7));
                 ("profile", VObj 1 [("bio", VPrim (PStr "x"))])])
        relationState
      = Return {[ "7" := w ]} s'
      ∧ attributes (value_ w) = VObj 1 [("bio", VPrim (PStr "x"))]
      ∧ content (original (value_ w)) = content (attributes (value_ w)).
Proof.
  assert (isDoc (VObj 0 [("_id", VPrim (PInt 7));
                         ("profile", VObj 1 [("bio", VPrim (PStr "x"))])])) as Hdoc
    by (by do 2 eexists).
  split; [exact Hdoc|].
  destruct (eagerLoadSingle_spec (VPrim (PInt 7)) None _ relationState Hdoc)
    as (w & s' & Hrun & _ & Hattr & _ & Hcopy & _).
  { unfold allocatedBelow. repeat constructor; simpl; lia. }
  exists w, s'. split; [exact Hrun|]. split; [exact Hattr|exact Hcopy].
Defined.

Lemma eagerLoad_nullish_last_row_witness :
  isNullish (VPrim PNull)
  ∧ ∃ s', eagerLoad [] None (userRows ++ [VPrim PNull]) relationState
          = Throw TypeError s'.
Proof.
  split; [by right|].
  apply (eagerLoad_nullish_last_row [] None userRows (VPrim PNull) relationState).
  by right.
Defined.

End EmbedsOneMoreFacts.
